(** * Confidential-balance core: Twisted ElGamal, the withdraw sigma proof
      and the VeiledTransfer builder

    A shallow embedding of
      - [twistedElGamal.ts]   (TwistedElGamal, TwistedElGamalCiphertext),
      - [sigmaProofs.ts]      (the withdraw, transfer and key-rotation
                               proofs and their verifiers),
      - [veiledTransfer.ts]   (the VeiledTransfer builder),
    followed by the properties claimed of them and by further properties
    of the same code.

    How the program is read:
      - a [bigint] is a [Z], a [Uint8Array] a [list byte], an optional
        value an [option]; a thrown exception is a value [Throw e] of
        [Result], and code that may throw is sequenced with [x <- c ;; k];
      - the Ristretto group of [@noble/curves] is taken through its
        algebraic interface, the class [RistrettoGroup]: an abelian group
        in which every element has order dividing [ed25519.CURVE.n], with
        the generators [BASE] and [H_RISTRETTO] of that order, an equality
        test and a 32-byte encoding.  [multiply] is scalar multiplication
        on every integer; the range the library accepts for a scalar is not
        part of the interface (where the sources treat a zero scalar apart,
        as [encryptWithPK] and [decryptWithPK] do, the embedding does too);
      - what a call draws at random ([randomBytes], [ed25519GenRandom],
        [ed25519GenListOfRandom]) and the hash [sha512] are arguments of
        the embedded functions;
      - an [async] method is the function from its arguments to the value
        its promise resolves to, or to the exception it rejects with;
      - a [while] loop runs under a bound on its turns that is shown to be
        large enough. *)

From Stdlib Require Import ZArith List Lia Bool Znumtheory.
From Stdlib Require Import Strings.Byte.
From Stdlib Require Strings.String.
Import Strings.String.StringSyntax.
Delimit Scope string_scope with string.
Bind Scope string_scope with String.string.
From Stdlib Require Import Zmod.
Import ListNotations.
Local Open Scope Z_scope.

(* ------------------------------------------------------------------ *)
(** ** Exceptions *)

Inductive Error : Type :=
| AmountRangeError          (* "The amount must be in the range 0 to n" *)
| RandomBytesError          (* ensureBytes("Random bytes", _, 32) *)
| InvalidPointEncoding      (* RistrettoPoint.fromHex on a non-point *)
| DecryptRangeError         (* "Error while decrypting amount in specified range" *)
| InverseDoesNotExist       (* invert of a scalar that has no inverse *)
| NotInitialized            (* "VeiledWithdraw is not initialized" *)
| InvalidRandomnessLength   (* "Invalid length list of randomness" *)
| AmountTooLarge            (* "Amount must be less than 2n**64" *)
| BalanceAfterTransferUndefined
| EncryptedBalanceAfterTransferUndefined
| SigmaProofLengthNotMultiple
| SigmaProofTooShort
| UndefinedDereference      (* a property read, or BigInt arithmetic, on undefined *)
| LoopFuelExhausted.        (* not an exception of the program: the bound of the
                               embedded while loop, shown never to be reached *)

Inductive Result (A : Type) : Type :=
| Ok (a : A)
| Throw (e : Error).
Arguments Ok {A} a.
Arguments Throw {A} e.

Definition bind {A B : Type} (c : Result A) (k : A -> Result B) : Result B :=
  match c with
  | Ok a => k a
  | Throw e => Throw e
  end.

Notation "x <- c ;; k" := (bind c (fun x => k))
  (at level 61, c at next level, right associativity).

Definition orThrow {A : Type} (o : option A) (e : Error) : Result A :=
  match o with
  | Some a => Ok a
  | None => Throw e
  end.

(** [xs.map(f)] for a callback that may throw: left to right, the first
    exception aborts the map. *)
Fixpoint mapM {A B : Type} (f : A -> Result B) (xs : list A) : Result (list B) :=
  match xs with
  | [] => Ok []
  | x :: rest => y <- f x ;; ys <- mapM f rest ;; Ok (y :: ys)
  end.

(** [xs.map((x, i) => f x i)], the index starting at [i]. *)
Fixpoint mapiM {A B : Type} (f : A -> nat -> Result B) (i : nat) (xs : list A)
  : Result (list B) :=
  match xs with
  | [] => Ok []
  | x :: rest => y <- f x i ;; ys <- mapiM f (S i) rest ;; Ok (y :: ys)
  end.

(** [xs[i]] used where a value is required: [undefined] makes the
    surrounding BigInt arithmetic or method call throw a TypeError. *)
Definition at_index {A : Type} (xs : list A) (i : nat) : Result A :=
  orThrow (nth_error xs i) UndefinedDereference.

(** A [while] loop with a bound on the number of turns.  [body] either ends
    the loop with a result or hands on the next loop variables; [whileLoop
    fuel body st] runs at most [fuel] turns and stops at the first result.
    The bound is a binary number, so that a large bound costs nothing when
    the loop ends early. *)
Fixpoint whileLoop {S R : Type} (fuel : positive) (body : S -> R + S) (st : S) : R + S :=
  match fuel with
  | xH => body st
  | xO fuel' =>
      match whileLoop fuel' body st with
      | inl r => inl r
      | inr st' => whileLoop fuel' body st'
      end
  | xI fuel' =>
      match body st with
      | inl r => inl r
      | inr st1 =>
          match whileLoop fuel' body st1 with
          | inl r => inl r
          | inr st2 => whileLoop fuel' body st2
          end
      end
  end.


(* ------------------------------------------------------------------ *)
(** ** Bytes and little-endian numbers ([@noble/curves/abstract/utils]) *)

Definition bytes := list byte.

Definition byte_of_Z (z : Z) : byte :=
  match Byte.of_N (Z.to_N (z mod 256)) with
  | Some b => b
  | None => x00
  end.

Definition Z_of_byte (b : byte) : Z := Z.of_N (Byte.to_N b).

(** [numberToBytesLE(n, len)]: the [len]-byte little-endian encoding, which
    is what the library returns for [0 <= n < 256^len]. *)
Fixpoint numberToBytesLE (n : Z) (len : nat) : bytes :=
  match len with
  | O => []
  | S l => byte_of_Z n :: numberToBytesLE (n / 256) l
  end.

Fixpoint bytesToNumberLE (bs : bytes) : Z :=
  match bs with
  | [] => 0
  | b :: rest => Z_of_byte b + 256 * bytesToNumberLE rest
  end.

Definition concatBytes (arrays : list bytes) : bytes := concat arrays.

Definition utf8ToBytes (s : String.string) : bytes := String.list_byte_of_string s.

(** [ensureBytes(title, bytes, expectedLength)] on a Uint8Array. *)
Definition ensureBytes (e : Error) (bs : bytes) (expectedLength : nat) : Result bytes :=
  if Nat.eqb (length bs) expectedLength then Ok bs else Throw e.

(* ------------------------------------------------------------------ *)
(** ** Scalars: [ed25519.CURVE.n], [mod], [invert] *)

Definition CURVE_n : Z := 2 ^ 252 + 27742317777372353535851937790883648493.

(** [mod(a, n)] of [@noble/curves/abstract/modular]: the representative in
    [0, n). *)
Definition modN (a : Z) : Z := a mod CURVE_n.

(** [invert(a, n)]: extended Euclid; throws when [a] has no inverse. *)
Definition invertN (a : Z) : Result Z :=
  if Z.gcd (a mod CURVE_n) CURVE_n =? 1
  then Ok (Z.invmod a CURVE_n)
  else Throw InverseDoesNotExist.

(* ------------------------------------------------------------------ *)
(** ** The Ristretto group interface *)

Class RistrettoGroup : Type := {
  RistPoint : Type;
  ZERO : RistPoint;
  BASE : RistPoint;
  H_RISTRETTO : RistPoint;
  add : RistPoint -> RistPoint -> RistPoint;
  subtract : RistPoint -> RistPoint -> RistPoint;
  multiply : RistPoint -> Z -> RistPoint;
  equals : RistPoint -> RistPoint -> bool;
  toRawBytes : RistPoint -> bytes;
  fromHex : bytes -> option RistPoint;

  add_assoc : forall P Q R, add P (add Q R) = add (add P Q) R;
  add_comm : forall P Q, add P Q = add Q P;
  add_ZERO : forall P, add P ZERO = P;
  subtract_add : forall P Q, add (subtract P Q) Q = P;
  multiply_0 : forall P, multiply P 0 = ZERO;
  multiply_1 : forall P, multiply P 1 = P;
  multiply_plus : forall P a b, multiply P (a + b) = add (multiply P a) (multiply P b);
  multiply_multiply : forall P a b, multiply (multiply P a) b = multiply P (a * b);
  multiply_add : forall P Q a, multiply (add P Q) a = add (multiply P a) (multiply Q a);
  multiply_order : forall P, multiply P CURVE_n = ZERO;
  BASE_order : forall k, multiply BASE k = ZERO -> k mod CURVE_n = 0;
  H_order : forall k, multiply H_RISTRETTO k = ZERO -> k mod CURVE_n = 0;
  equals_spec : forall P Q, equals P Q = true <-> P = Q;
  toRawBytes_length : forall P, length (toRawBytes P) = 32%nat;
  fromHex_toRawBytes : forall P, fromHex (toRawBytes P) = Some P
}.

(* ------------------------------------------------------------------ *)
(** ** Keys ([twistedEd25519.ts]) *)

Record TwistedEd25519PrivateKey : Type := { sk_bytes : bytes }.
Record TwistedEd25519PublicKey : Type := { pk_bytes : bytes }.

(** [privateKey.toUint8Array()] *)
Definition sk_toUint8Array (k : TwistedEd25519PrivateKey) : bytes := sk_bytes k.
(** [publicKey.toUint8Array()] and [publicKeyToU8(publicKey)] *)
Definition pk_toUint8Array (k : TwistedEd25519PublicKey) : bytes := pk_bytes k.
Definition publicKeyToU8 (k : TwistedEd25519PublicKey) : bytes := pk_toUint8Array k.
Definition toTwistedEd25519PrivateKey (k : TwistedEd25519PrivateKey) := k.

Section TwistedElGamal.
Context {G : RistrettoGroup}.

(** What [randomBytes(n)] of [@noble/hashes/utils] returns when it is asked. *)
Variable randomBytes : nat -> bytes.

(** Modelled from the spec: [TwistedEd25519PrivateKey.publicKey()], whose
    file is not part of the sources.  "The decryption key s is a Scalar and
    the encryption key is the point P = (1/s).H", in its canonical 32-byte
    serialization. *)
Definition publicKey (k : TwistedEd25519PrivateKey) : Result TwistedEd25519PublicKey :=
  let scalarLE := bytesToNumberLE (sk_toUint8Array k) in
  invertModScalarLE <- invertN scalarLE ;;
  Ok {| pk_bytes := toRawBytes (multiply H_RISTRETTO invertModScalarLE) |}.

(** [RistrettoPoint.fromHex(bytes)], throwing on a non-point. *)
Definition pointFromHex (bs : bytes) : Result RistPoint :=
  orThrow (fromHex bs) InvalidPointEncoding.

(** *** TwistedElGamalCiphertext *)

Record TwistedElGamalCiphertext : Type := { ct_C : RistPoint; ct_D : RistPoint }.

(** [new TwistedElGamalCiphertext(C, D)] *)
Definition newCiphertext (C D : bytes) : Result TwistedElGamalCiphertext :=
  pC <- pointFromHex C ;;
  pD <- pointFromHex D ;;
  Ok {| ct_C := pC; ct_D := pD |}.

Definition addAmount (this : TwistedElGamalCiphertext) (amount : Z) :=
  let aG := multiply BASE amount in
  let updatedC := add (ct_C this) aG in
  newCiphertext (toRawBytes updatedC) (toRawBytes (ct_D this)).

Definition subtractAmount (this : TwistedElGamalCiphertext) (amount : Z) :=
  let aG := multiply BASE amount in
  let updatedC := subtract (ct_C this) aG in
  newCiphertext (toRawBytes updatedC) (toRawBytes (ct_D this)).

Definition addCiphertext (this ciphertext : TwistedElGamalCiphertext) :=
  let updatedC := add (ct_C this) (ct_C ciphertext) in
  let updatedD := add (ct_D this) (ct_D ciphertext) in
  newCiphertext (toRawBytes updatedC) (toRawBytes updatedD).

Definition subtractCiphertext (this ciphertext : TwistedElGamalCiphertext) :=
  let updatedC := subtract (ct_C this) (ct_C ciphertext) in
  let updatedD := subtract (ct_D this) (ct_D ciphertext) in
  newCiphertext (toRawBytes updatedC) (toRawBytes updatedD).

(** *** TwistedElGamal.encryptWithPK *)

(** The guard of [encryptWithPK], as written: [amount < 0n && amount >= n]. *)
Definition amountGuard (amount : Z) : bool :=
  (amount <? 0) && (amount >=? CURVE_n).

Definition encryptWithPK (amount : Z) (publicKey : TwistedEd25519PublicKey)
  (random : option bytes) : Result TwistedElGamalCiphertext :=
  if amountGuard amount then Throw AmountRangeError else
  rBytes <- ensureBytes RandomBytesError
              (match random with Some r => r | None => randomBytes 32 end) 32 ;;
  let m := amount in
  let r := modN (bytesToNumberLE rBytes) in
  let rH := multiply H_RISTRETTO r in
  let mG := if m =? 0 then ZERO else multiply BASE m in
  pk <- pointFromHex (pk_toUint8Array publicKey) ;;
  let D := multiply pk r in
  let C := add mG rH in
  newCiphertext (toRawBytes C) (toRawBytes D).

(** *** TwistedElGamal.decryptWithPK *)

Record DecryptionRange : Type := { range_start : option Z; range_end : option Z }.

(** One turn of [while (!mH.equals(searchablePoint)) { ... }] on the loop
    variables [(amount, searchablePoint)]: either the call ends (the loop
    condition fails and [amount] is returned, or the body throws), or the
    loop goes on with the updated variables. *)
Definition searchStep (mH : RistPoint) (endAmount : Z) (st : Z * RistPoint)
  : Result Z + Z * RistPoint :=
  let '(amount, searchablePoint) := st in
  if negb (equals mH searchablePoint) then
    if amount >=? endAmount then inl (Throw DecryptRangeError)
    else inr (amount + 1, add searchablePoint BASE)
  else inl (Ok amount).

Definition searchLoop (fuel : positive) (mH : RistPoint) (amount : Z)
  (searchablePoint : RistPoint) (endAmount : Z) : Result Z :=
  match whileLoop fuel (searchStep mH endAmount) (amount, searchablePoint) with
  | inl r => r
  | inr _ => Throw LoopFuelExhausted
  end.

(** The part of [decryptWithPK] from [let searchablePoint = ...] on.  The
    loop gets as many turns as it can take before [amount >= endAmount]
    stops it. *)
Definition searchFrom (mH : RistPoint) (amount : Z)
  (decryptionRange : option DecryptionRange) : Result Z :=
  let searchablePoint := multiply BASE amount in
  let endAmount :=
    match decryptionRange with
    | Some {| range_end := Some e |} => e
    | _ => CURVE_n
    end in
  searchLoop (Z.to_pos (endAmount - amount + 1)) mH amount searchablePoint endAmount.

Definition decryptWithPK (ciphertext : TwistedElGamalCiphertext)
  (privateKey : TwistedEd25519PrivateKey)
  (decryptionRange : option DecryptionRange) : Result Z :=
  let C := ct_C ciphertext in
  let D := ct_D ciphertext in
  let modS := modN (bytesToNumberLE (sk_toUint8Array privateKey)) in
  pD <- pointFromHex (toRawBytes D) ;;
  let sD := multiply pD modS in
  pC <- pointFromHex (toRawBytes C) ;;
  let mH := subtract pC sD in
  let amount :=
    match decryptionRange with
    | Some {| range_start := Some s |} => s
    | _ => 0
    end in
  if amount =? 0 then
    if equals mH ZERO then Ok 0
    else searchFrom mH (amount + 1) decryptionRange
  else searchFrom mH amount decryptionRange.

End TwistedElGamal.

(** *** The rest of the class TwistedElGamal *)

(** [type ModifyCiphertextOperation = "add" | "subtract"].  The [default]
    branch of the two [switch] statements below is reached by no value of
    this type. *)
Inductive ModifyCiphertextOperation : Type :=
| OpAdd
| OpSubtract.


Section TwistedElGamalClass.
Context {G : RistrettoGroup}.
Variable randomBytes : nat -> bytes.




Definition modifyCiphertextByAmount (ciphertext : TwistedElGamalCiphertext)
  (operation : ModifyCiphertextOperation) (amount : Z) : Result TwistedElGamalCiphertext :=
  match operation with
  | OpAdd => addAmount ciphertext amount
  | OpSubtract => subtractAmount ciphertext amount
  end.

Definition modifyCiphertextByCiphertext (operand1 : TwistedElGamalCiphertext)
  (operation : ModifyCiphertextOperation) (operand2 : TwistedElGamalCiphertext)
  : Result TwistedElGamalCiphertext :=
  match operation with
  | OpAdd => addCiphertext operand1 operand2
  | OpSubtract => subtractCiphertext operand1 operand2
  end.

End TwistedElGamalClass.

(* ------------------------------------------------------------------ *)
(** ** Sigma proof of a withdrawal ([sigmaProofs.ts]) *)

Record SigmaProofVeiledWithdrawOutputs : Type := {
  w_alpha1 : bytes; w_alpha2 : bytes; w_alpha3 : bytes;
  w_X1 : bytes; w_X2 : bytes
}.

(** [bytes.subarray(start, end)] *)
Definition subarray (bs : bytes) (start end_ : nat) : bytes :=
  firstn (end_ - start) (skipn start bs).

Definition PROOF_CHUNK_SIZE : nat := 32.

(** The loop [for (let i = 0; i < limit; i += PROOF_CHUNK_SIZE)
    arr.push(bs.subarray(i, i + PROOF_CHUNK_SIZE))]. *)
Definition proofChunks (bs : bytes) (limit : nat) : list bytes :=
  map (fun k => subarray bs (k * PROOF_CHUNK_SIZE) (k * PROOF_CHUNK_SIZE + PROOF_CHUNK_SIZE))
      (seq 0 ((limit + (PROOF_CHUNK_SIZE - 1)) / PROOF_CHUNK_SIZE)).

(** Modelled from the spec: [serializeVeiledWithdrawSigmaProof] and
    [deserializeSigmaProofVeiledWithdraw] of [sigmaProofsSerializers.ts],
    which is not part of the sources.  "Concatenation of fixed-width fields,
    32 bytes each, in the order declared"; a proof of another length is
    malformed. *)
Definition SIGMA_PROOF_WITHDRAW_SIZE : nat := PROOF_CHUNK_SIZE * 5.

Definition serializeVeiledWithdrawSigmaProof (proof : SigmaProofVeiledWithdrawOutputs) : bytes :=
  concatBytes [w_alpha1 proof; w_alpha2 proof; w_alpha3 proof; w_X1 proof; w_X2 proof].

Definition deserializeSigmaProofVeiledWithdraw (proof : bytes)
  : Result SigmaProofVeiledWithdrawOutputs :=
  if negb (Nat.eqb (length proof) SIGMA_PROOF_WITHDRAW_SIZE)
  then Throw SigmaProofTooShort
  else
    let proofArr := proofChunks proof SIGMA_PROOF_WITHDRAW_SIZE in
    Ok {| w_alpha1 := nth 0 proofArr [];
          w_alpha2 := nth 1 proofArr [];
          w_alpha3 := nth 2 proofArr [];
          w_X1 := nth 3 proofArr [];
          w_X2 := nth 4 proofArr [] |}.

Section SigmaProofs.
Context {G : RistrettoGroup}.

(** [sha512] of [@noble/hashes]. *)
Variable sha512 : bytes -> bytes.

Definition FIAT_SHAMIR_SIGMA_DST : String.string :=
  "AptosVeiledCoin/WithdrawalSubproofFiatShamir".

Definition genFiatShamirChallenge (arrays : list bytes) : Z :=
  let hash := sha512 (concatBytes arrays) in
  modN (bytesToNumberLE hash).

Record SigmaProofVeiledWithdrawOptions : Type := {
  wo_privateKey : TwistedEd25519PrivateKey;
  wo_encryptedBalance : TwistedElGamalCiphertext;
  wo_amount : Z;
  wo_changedBalance : Z
}.

Record VerifySigmaProofVeiledWithdrawOptions : Type := {
  vo_publicKey : TwistedEd25519PublicKey;
  vo_encryptedBalance : TwistedElGamalCiphertext;
  vo_amount : Z;
  vo_proof : bytes
}.

(** [x1 x2 x3] are the three draws of [genModRandom()]. *)
Definition genSigmaProofVeiledWithdraw (opts : SigmaProofVeiledWithdrawOptions)
  (x1 x2 x3 : Z) : Result bytes :=
  let privateKey := toTwistedEd25519PrivateKey (wo_privateKey opts) in
  let X1 := add (multiply BASE x1) (multiply (ct_D (wo_encryptedBalance opts)) x2) in
  let X2 := multiply H_RISTRETTO x3 in
  pk <- publicKey privateKey ;;
  let p := genFiatShamirChallenge
    [ utf8ToBytes FIAT_SHAMIR_SIGMA_DST;
      numberToBytesLE (wo_amount opts) 32;
      pk_toUint8Array pk;
      toRawBytes (ct_C (wo_encryptedBalance opts));
      toRawBytes (ct_D (wo_encryptedBalance opts));
      toRawBytes BASE;
      toRawBytes H_RISTRETTO;
      toRawBytes X1;
      toRawBytes X2 ] in
  let sLE := bytesToNumberLE (sk_toUint8Array privateKey) in
  invertSLE <- invertN sLE ;;
  let pt := modN (p * wo_changedBalance opts) in
  let ps := modN (p * sLE) in
  let psInvert := modN (p * invertSLE) in
  let alpha1 := modN (x1 - pt) in
  let alpha2 := modN (x2 - ps) in
  let alpha3 := modN (x3 - psInvert) in
  Ok (serializeVeiledWithdrawSigmaProof
        {| w_alpha1 := numberToBytesLE alpha1 32;
           w_alpha2 := numberToBytesLE alpha2 32;
           w_alpha3 := numberToBytesLE alpha3 32;
           w_X1 := toRawBytes X1;
           w_X2 := toRawBytes X2 |}).

Definition verifySigmaProofVeiledWithdraw (opts : VerifySigmaProofVeiledWithdrawOptions)
  : Result bool :=
  proof <- deserializeSigmaProofVeiledWithdraw (vo_proof opts) ;;
  let publicKeyU8 := publicKeyToU8 (vo_publicKey opts) in
  let alpha1LE := bytesToNumberLE (w_alpha1 proof) in
  let alpha2LE := bytesToNumberLE (w_alpha2 proof) in
  let alpha3LE := bytesToNumberLE (w_alpha3 proof) in
  let alpha1G := multiply BASE alpha1LE in
  let alpha2D := multiply (ct_D (vo_encryptedBalance opts)) alpha2LE in
  let alpha3H := multiply H_RISTRETTO alpha3LE in
  let p := genFiatShamirChallenge
    [ utf8ToBytes FIAT_SHAMIR_SIGMA_DST;
      numberToBytesLE (vo_amount opts) 32;
      publicKeyU8;
      toRawBytes (ct_C (vo_encryptedBalance opts));
      toRawBytes (ct_D (vo_encryptedBalance opts));
      toRawBytes BASE;
      toRawBytes H_RISTRETTO;
      w_X1 proof;
      w_X2 proof ] in
  pkPoint <- pointFromHex publicKeyU8 ;;
  let pP := multiply pkPoint p in
  let X1 := add (add alpha1G alpha2D)
                (multiply (subtract (ct_C (vo_encryptedBalance opts))
                                    (multiply BASE (vo_amount opts))) p) in
  let X2 := add alpha3H pP in
  proofX1 <- pointFromHex (w_X1 proof) ;;
  if equals X1 proofX1 then
    proofX2 <- pointFromHex (w_X2 proof) ;;
    Ok (equals X2 proofX2)
  else Ok false.

End SigmaProofs.

(** *** The transfer and key-rotation proofs of [sigmaProofs.ts] *)

(** [xs.every((x, i) => f x i)] for a callback that may throw: left to
    right, stopping at the first [false]. *)
Fixpoint everyiM {A : Type} (f : A -> nat -> Result bool) (i : nat) (xs : list A)
  : Result bool :=
  match xs with
  | [] => Ok true
  | x :: rest => b <- f x i ;; if b then everyiM f (S i) rest else Ok false
  end.

(** [b && k]: the right operand is evaluated only when the left one holds. *)
Definition andAlso (b : bool) (k : Result bool) : Result bool :=
  if b then k else Ok false.

Record SigmaProofVeiledTransferOutputs : Type := {
  t_alpha1 : bytes; t_alpha2 : bytes; t_alpha3 : bytes; t_alpha4 : bytes; t_alpha5 : bytes;
  t_X1 : bytes; t_X2 : bytes; t_X3 : bytes; t_X4 : bytes; t_X5 : bytes;
  t_auditorsX : option (list bytes)
}.

Record SigmaProofVeiledKeyRotationOutputs : Type := {
  k_alpha1 : bytes; k_alpha2 : bytes; k_alpha3 : bytes; k_alpha4 : bytes; k_alpha5 : bytes;
  k_X1 : bytes; k_X2 : bytes; k_X3 : bytes; k_X4 : bytes
}.

(** [opts.auditors] of the transfer verifier. *)
Record TransferAuditors : Type := {
  au_publicKeys : list TwistedEd25519PublicKey;
  au_decryptionKeys : list bytes
}.

(** What a call of [verifySigmaProofVeiledTransfer] comes to: its own
    exception "The number of auditors does not match the proof handed
    over.", or the rest of the call. *)
Inductive TransferVerification : Type :=
| AuditorsNumberMismatch
| Verification (r : Result bool).

Section TransferAndKeyRotationProofs.
Context {G : RistrettoGroup}.
Variable randomBytes : nat -> bytes.
Variable sha512 : bytes -> bytes.

(** The serializers of [sigmaProofsSerializers.ts], a file that is not part
    of the sources: the prover and the verifier are read for any such
    functions. *)
Variable serializeSigmaProofVeiledTransfer : SigmaProofVeiledTransferOutputs -> bytes.
Variable deserializeSigmaProofVeiledTransfer : bytes -> Result SigmaProofVeiledTransferOutputs.
Variable serializeSigmaProofVeiledKeyRotation : SigmaProofVeiledKeyRotationOutputs -> bytes.
Variable deserializeSigmaProofVeiledKeyRotation
  : bytes -> Result SigmaProofVeiledKeyRotationOutputs.

Record SigmaProofVeiledTransferOptions : Type := {
  to_senderPrivateKey : TwistedEd25519PrivateKey;
  to_receiverPublicKey : TwistedEd25519PublicKey;
  to_encryptedSenderBalance : TwistedElGamalCiphertext;
  to_amount : Z;
  to_changedSenderBalance : Z;
  to_random : option bytes;
  to_auditorPublicKeys : option (list TwistedEd25519PublicKey)
}.

Record VerifySigmaProofVeiledTransferOptions : Type := {
  vt_senderPublicKey : TwistedEd25519PublicKey;
  vt_receiverPublicKey : TwistedEd25519PublicKey;
  vt_encryptedSenderBalance : TwistedElGamalCiphertext;
  vt_encryptedAmountBySender : TwistedElGamalCiphertext;
  vt_receiverDa : bytes;
  vt_proof : bytes;
  vt_auditors : option TransferAuditors
}.

Record SigmaProofVeiledKeyRotationOptions : Type := {
  ko_oldPrivateKey : TwistedEd25519PrivateKey;
  ko_newPrivateKey : TwistedEd25519PrivateKey;
  ko_balance : Z;
  ko_encryptedBalance : TwistedElGamalCiphertext;
  ko_random : option bytes
}.

Record VerifySigmaProofVeiledKeyRotationOptions : Type := {
  vk_oldPublicKey : TwistedEd25519PublicKey;
  vk_newPublicKey : TwistedEd25519PublicKey;
  vk_oldEncryptedBalance : TwistedElGamalCiphertext;
  vk_newEncryptedBalance : TwistedElGamalCiphertext;
  vk_proof : bytes
}.

(** [x1 ... x5] are the five draws of [genModRandom()]. *)
Definition genSigmaProofVeiledTransfer (opts : SigmaProofVeiledTransferOptions)
  (x1 x2 x3 x4 x5 : Z) : Result bytes :=
  rBytes <- ensureBytes RandomBytesError
              (match to_random opts with Some r => r | None => randomBytes 32 end) 32 ;;
  let rAmount := modN (bytesToNumberLE rBytes) in
  let senderPrivateKey := toTwistedEd25519PrivateKey (to_senderPrivateKey opts) in
  let receiverPublicKeyU8 := publicKeyToU8 (to_receiverPublicKey opts) in
  senderPublicKey <- publicKey senderPrivateKey ;;
  senderPKRistretto <- pointFromHex (pk_toUint8Array senderPublicKey) ;;
  receiverPKRistretto <- pointFromHex receiverPublicKeyU8 ;;
  let receiverDRistretto := multiply receiverPKRistretto rAmount in
  amountCiphertext <- encryptWithPK randomBytes (to_amount opts) senderPublicKey
                        (Some rBytes) ;;
  auditorsX <-
    match to_auditorPublicKeys opts with
    | Some pks =>
        mapM (fun pk =>
                let publicKeyU8 := publicKeyToU8 pk in
                pkRist <- pointFromHex publicKeyU8 ;;
                Ok (toRawBytes (multiply pkRist x3)))
             pks
    | None => Ok []
    end ;;
  let X1 := add (multiply BASE x1)
                (multiply (subtract (ct_D (to_encryptedSenderBalance opts))
                                    (ct_D amountCiphertext)) x2) in
  let X2 := multiply senderPKRistretto x3 in
  let X3 := multiply receiverPKRistretto x3 in
  let X4 := add (multiply BASE x4) (multiply H_RISTRETTO x3) in
  let X5 := multiply H_RISTRETTO x5 in
  let p := genFiatShamirChallenge sha512
    ([ utf8ToBytes FIAT_SHAMIR_SIGMA_DST;
       pk_toUint8Array senderPublicKey;
       receiverPublicKeyU8;
       toRawBytes (ct_C (to_encryptedSenderBalance opts));
       toRawBytes (ct_D (to_encryptedSenderBalance opts));
       toRawBytes (ct_C amountCiphertext);
       toRawBytes (ct_D amountCiphertext);
       toRawBytes receiverDRistretto;
       toRawBytes BASE;
       toRawBytes H_RISTRETTO;
       toRawBytes X1;
       toRawBytes X2;
       toRawBytes X3;
       toRawBytes X4;
       toRawBytes X5 ]
       ++ auditorsX) in
  let sLE := bytesToNumberLE (sk_toUint8Array senderPrivateKey) in
  invertSLE <- invertN sLE ;;
  let alpha1 := modN (x1 - p * to_changedSenderBalance opts) in
  let alpha2 := modN (x2 - p * sLE) in
  let alpha3 := modN (x3 - p * rAmount) in
  let alpha4 := modN (x4 - p * to_amount opts) in
  let alpha5 := modN (x5 - p * invertSLE) in
  Ok (serializeSigmaProofVeiledTransfer
        {| t_alpha1 := numberToBytesLE alpha1 32;
           t_alpha2 := numberToBytesLE alpha2 32;
           t_alpha3 := numberToBytesLE alpha3 32;
           t_alpha4 := numberToBytesLE alpha4 32;
           t_alpha5 := numberToBytesLE alpha5 32;
           t_X1 := toRawBytes X1;
           t_X2 := toRawBytes X2;
           t_X3 := toRawBytes X3;
           t_X4 := toRawBytes X4;
           t_X5 := toRawBytes X5;
           t_auditorsX := Some auditorsX |}).

(** [x1 ... x5] are the five draws of [genModRandom()]. *)
Definition genSigmaProofVeiledKeyRotation (opts : SigmaProofVeiledKeyRotationOptions)
  (x1 x2 x3 x4 x5 : Z) : Result bytes :=
  let oldPrivateKey := toTwistedEd25519PrivateKey (ko_oldPrivateKey opts) in
  let newPrivateKey := toTwistedEd25519PrivateKey (ko_newPrivateKey opts) in
  oldPublicKey <- publicKey oldPrivateKey ;;
  newPublicKey <- publicKey newPrivateKey ;;
  rBytes <- ensureBytes RandomBytesError
              (match ko_random opts with Some r => r | None => randomBytes 32 end) 32 ;;
  let r := modN (bytesToNumberLE rBytes) in
  newCiphertext <- encryptWithPK randomBytes (ko_balance opts) newPublicKey (Some rBytes) ;;
  let X1 := subtract (multiply (ct_D (ko_encryptedBalance opts)) x1)
                     (multiply (ct_D newCiphertext) x2) in
  let X2 := add (multiply BASE x3) (multiply H_RISTRETTO x4) in
  newPKRistretto <- pointFromHex (pk_toUint8Array newPublicKey) ;;
  let X3 := multiply newPKRistretto x4 in
  let X4 := multiply H_RISTRETTO x5 in
  let p := genFiatShamirChallenge sha512
    [ utf8ToBytes FIAT_SHAMIR_SIGMA_DST;
      pk_toUint8Array oldPublicKey;
      pk_toUint8Array newPublicKey;
      toRawBytes (ct_C (ko_encryptedBalance opts));
      toRawBytes (ct_D (ko_encryptedBalance opts));
      toRawBytes (ct_C newCiphertext);
      toRawBytes (ct_D newCiphertext);
      toRawBytes BASE;
      toRawBytes H_RISTRETTO;
      toRawBytes X1;
      toRawBytes X2;
      toRawBytes X3;
      toRawBytes X4 ] in
  let oldSLE := bytesToNumberLE (sk_toUint8Array oldPrivateKey) in
  invertOldSLE <- invertN oldSLE ;;
  let alpha1 := modN (x1 - p * oldSLE) in
  let alpha2 := modN (x2 - p * bytesToNumberLE (sk_toUint8Array newPrivateKey)) in
  let alpha3 := modN (x3 - p * ko_balance opts) in
  let alpha4 := modN (x4 - p * r) in
  let alpha5 := modN (x5 - p * invertOldSLE) in
  Ok (serializeSigmaProofVeiledKeyRotation
        {| k_alpha1 := numberToBytesLE alpha1 32;
           k_alpha2 := numberToBytesLE alpha2 32;
           k_alpha3 := numberToBytesLE alpha3 32;
           k_alpha4 := numberToBytesLE alpha4 32;
           k_alpha5 := numberToBytesLE alpha5 32;
           k_X1 := toRawBytes X1;
           k_X2 := toRawBytes X2;
           k_X3 := toRawBytes X3;
           k_X4 := toRawBytes X4 |}).

Definition verifySigmaProofVeiledTransfer (opts : VerifySigmaProofVeiledTransferOptions)
  : TransferVerification :=
  match deserializeSigmaProofVeiledTransfer (vt_proof opts) with
  | Throw e => Verification (Throw e)
  | Ok proof =>
  let auditorsX := match t_auditorsX proof with Some l => l | None => [] end in
  let auditorPKs :=
    match vt_auditors opts with Some a => au_publicKeys a | None => [] end in
  let auditorDecryptionKeys :=
    match vt_auditors opts with Some a => au_decryptionKeys a | None => [] end in
  if negb (Nat.eqb (length auditorsX) (length auditorDecryptionKeys))
     || negb (Nat.eqb (length auditorsX) (length auditorPKs))
  then AuditorsNumberMismatch
  else Verification (
  receiverDRistretto <- pointFromHex (vt_receiverDa opts) ;;
  let alpha1LE := bytesToNumberLE (t_alpha1 proof) in
  let alpha2LE := bytesToNumberLE (t_alpha2 proof) in
  let alpha3LE := bytesToNumberLE (t_alpha3 proof) in
  let alpha4LE := bytesToNumberLE (t_alpha4 proof) in
  let alpha5LE := bytesToNumberLE (t_alpha5 proof) in
  let senderPublicKeyU8 := publicKeyToU8 (vt_senderPublicKey opts) in
  let receiverPublicKeyU8 := publicKeyToU8 (vt_receiverPublicKey opts) in
  senderPKRistretto <- pointFromHex senderPublicKeyU8 ;;
  receiverPKRistretto <- pointFromHex receiverPublicKeyU8 ;;
  let p := genFiatShamirChallenge sha512
    ([ utf8ToBytes FIAT_SHAMIR_SIGMA_DST;
       senderPublicKeyU8;
       receiverPublicKeyU8;
       toRawBytes (ct_C (vt_encryptedSenderBalance opts));
       toRawBytes (ct_D (vt_encryptedSenderBalance opts));
       toRawBytes (ct_C (vt_encryptedAmountBySender opts));
       toRawBytes (ct_D (vt_encryptedAmountBySender opts));
       toRawBytes receiverDRistretto;
       toRawBytes BASE;
       toRawBytes H_RISTRETTO;
       t_X1 proof;
       t_X2 proof;
       t_X3 proof;
       t_X4 proof;
       t_X5 proof ]
       ++ auditorsX) in
  let alpha1G := multiply BASE alpha1LE in
  let alpha2Db :=
    multiply (subtract (ct_D (vt_encryptedSenderBalance opts))
                       (ct_D (vt_encryptedAmountBySender opts))) alpha2LE in
  let pCb :=
    multiply (subtract (ct_C (vt_encryptedSenderBalance opts))
                       (ct_C (vt_encryptedAmountBySender opts))) p in
  let X1 := add (add alpha1G alpha2Db) pCb in
  let X2 := add (multiply senderPKRistretto alpha3LE)
                (multiply (ct_D (vt_encryptedAmountBySender opts)) p) in
  let X3 := add (multiply receiverPKRistretto alpha3LE)
                (multiply receiverDRistretto p) in
  let X4 := add (add (multiply BASE alpha4LE) (multiply H_RISTRETTO alpha3LE))
                (multiply (ct_C (vt_encryptedAmountBySender opts)) p) in
  let X5 := add (multiply H_RISTRETTO alpha5LE) (multiply senderPKRistretto p) in
  isAuditorsXValid <-
    everyiM (fun auditorX index =>
               pk <- at_index auditorPKs index ;;
               let publicKeyU8 := publicKeyToU8 pk in
               dk <- at_index auditorDecryptionKeys index ;;
               dkRist <- pointFromHex dk ;;
               let pDr := multiply dkRist p in
               pkRist <- pointFromHex publicKeyU8 ;;
               let alpha3R := multiply pkRist alpha3LE in
               let X := add alpha3R pDr in
               auditorXRist <- pointFromHex auditorX ;;
               Ok (equals X auditorXRist))
            0%nat auditorsX ;;
  andAlso isAuditorsXValid (
  proofX1 <- pointFromHex (t_X1 proof) ;;
  andAlso (equals X1 proofX1) (
  proofX2 <- pointFromHex (t_X2 proof) ;;
  andAlso (equals X2 proofX2) (
  proofX3 <- pointFromHex (t_X3 proof) ;;
  andAlso (equals X3 proofX3) (
  proofX4 <- pointFromHex (t_X4 proof) ;;
  andAlso (equals X4 proofX4) (
  proofX5 <- pointFromHex (t_X5 proof) ;;
  Ok (equals X5 proofX5)))))))
  end.

Definition verifySigmaProofVeiledKeyRotation (opts : VerifySigmaProofVeiledKeyRotationOptions)
  : Result bool :=
  proof <- deserializeSigmaProofVeiledKeyRotation (vk_proof opts) ;;
  let alpha1LE := bytesToNumberLE (k_alpha1 proof) in
  let alpha2LE := bytesToNumberLE (k_alpha2 proof) in
  let alpha3LE := bytesToNumberLE (k_alpha3 proof) in
  let alpha4LE := bytesToNumberLE (k_alpha4 proof) in
  let alpha5LE := bytesToNumberLE (k_alpha5 proof) in
  let p := genFiatShamirChallenge sha512
    [ utf8ToBytes FIAT_SHAMIR_SIGMA_DST;
      pk_toUint8Array (vk_oldPublicKey opts);
      pk_toUint8Array (vk_newPublicKey opts);
      toRawBytes (ct_C (vk_oldEncryptedBalance opts));
      toRawBytes (ct_D (vk_oldEncryptedBalance opts));
      toRawBytes (ct_C (vk_newEncryptedBalance opts));
      toRawBytes (ct_D (vk_newEncryptedBalance opts));
      toRawBytes BASE;
      toRawBytes H_RISTRETTO;
      k_X1 proof;
      k_X2 proof;
      k_X3 proof;
      k_X4 proof ] in
  let alpha1DOld := multiply (ct_D (vk_oldEncryptedBalance opts)) alpha1LE in
  let alpha2DNew := multiply (ct_D (vk_newEncryptedBalance opts)) alpha2LE in
  let alpha3G := multiply BASE alpha3LE in
  let alpha4H := multiply H_RISTRETTO alpha4LE in
  let pCNew := multiply (ct_C (vk_newEncryptedBalance opts)) p in
  pkOldRist <- pointFromHex (pk_toUint8Array (vk_oldPublicKey opts)) ;;
  pkNewRist <- pointFromHex (pk_toUint8Array (vk_newPublicKey opts)) ;;
  let X1 := add (subtract alpha1DOld alpha2DNew)
                (multiply (subtract (ct_C (vk_oldEncryptedBalance opts))
                                    (ct_C (vk_newEncryptedBalance opts))) p) in
  let X2 := add (add alpha3G alpha4H) pCNew in
  let X3 := add (multiply pkNewRist alpha4LE)
                (multiply (ct_D (vk_newEncryptedBalance opts)) p) in
  let X4 := add (multiply H_RISTRETTO alpha5LE) (multiply pkOldRist p) in
  proofX1 <- pointFromHex (k_X1 proof) ;;
  andAlso (equals X1 proofX1) (
  proofX2 <- pointFromHex (k_X2 proof) ;;
  andAlso (equals X2 proofX2) (
  proofX3 <- pointFromHex (k_X3 proof) ;;
  andAlso (equals X3 proofX3) (
  proofX4 <- pointFromHex (k_X4 proof) ;;
  Ok (equals X4 proofX4)))).

End TransferAndKeyRotationProofs.

(* ------------------------------------------------------------------ *)
(** ** The VeiledTransfer builder ([veiledTransfer.ts]) *)

(** Modelled from the spec: the constants of [consts.ts], which is not part
    of the sources.  "A balance is split into 4 chunks of 32 bits"; every
    field of a sigma proof is 32 bytes and the transfer layout
    [a1 a2 a3[0..3] a4[0..3] a5 a6[0..3] X1 X2[0..3] X3[0..3] X4[0..3] X5 X6[0..3]]
    has 33 fields. *)
Definition CHUNK_BITS_BI : Z := 32.
Definition VEILED_BALANCE_CHUNK_SIZE : nat := 4.
Definition SIGMA_PROOF_TRANSFER_SIZE : nat := PROOF_CHUNK_SIZE * 33.

(** Modelled from the spec: [amountToChunks] and [chunksToAmount] of
    [helpers.ts], which is not part of the sources.  "v = sum_i c_i * 2^(32 i)
    with c_i in [0, 2^32)". *)
Definition amountToChunks (amount : Z) (chunksCount : nat) : list Z :=
  map (fun i => Z.land (Z.shiftr amount (Z.of_nat i * CHUNK_BITS_BI))
                       (Z.shiftl 1 CHUNK_BITS_BI - 1))
      (seq 0 chunksCount).

Fixpoint chunksToAmount (chunks : list Z) : Z :=
  match chunks with
  | [] => 0
  | c :: rest => c + Z.shiftl (chunksToAmount rest) CHUNK_BITS_BI
  end.

Record VeiledTransferSigmaProof : Type := {
  alpha1 : bytes;
  alpha2 : bytes;
  alpha3List : list bytes;
  alpha4List : list bytes;
  alpha5 : bytes;
  alpha6List : list bytes;
  X1 : bytes;
  X2List : list bytes;
  X3List : list bytes;
  X4List : list bytes;
  X5 : bytes;
  X6List : list bytes;
  X7List : option (list bytes)
}.

(** [arr.slice(start, end)] and [arr.slice(start)] on an array of fields. *)
Definition slice {A : Type} (arr : list A) (start end_ : nat) : list A :=
  firstn (end_ - start) (skipn start arr).

Definition serializeSigmaProof (sigmaProof : VeiledTransferSigmaProof) : bytes :=
  concatBytes
    ([alpha1 sigmaProof; alpha2 sigmaProof]
       ++ alpha3List sigmaProof
       ++ alpha4List sigmaProof
       ++ [alpha5 sigmaProof]
       ++ alpha6List sigmaProof
       ++ [X1 sigmaProof]
       ++ X2List sigmaProof
       ++ X3List sigmaProof
       ++ X4List sigmaProof
       ++ [X5 sigmaProof]
       ++ X6List sigmaProof
       ++ match X7List sigmaProof with Some l => l | None => [] end).

Definition deserializeSigmaProof (sigmaProof : bytes) : Result VeiledTransferSigmaProof :=
  if negb (Nat.eqb (length sigmaProof mod PROOF_CHUNK_SIZE) 0)
  then Throw SigmaProofLengthNotMultiple
  else if Nat.ltb (length sigmaProof) SIGMA_PROOF_TRANSFER_SIZE
  then Throw SigmaProofTooShort
  else
    let baseProof := subarray sigmaProof 0 SIGMA_PROOF_TRANSFER_SIZE in
    let baseProofArray := proofChunks baseProof SIGMA_PROOF_TRANSFER_SIZE in
    let X7List :=
      if Nat.ltb SIGMA_PROOF_TRANSFER_SIZE (length sigmaProof) then
        let auditorsPartLength := (length sigmaProof - SIGMA_PROOF_TRANSFER_SIZE)%nat in
        let auditorsPart := skipn SIGMA_PROOF_TRANSFER_SIZE sigmaProof in
        proofChunks auditorsPart auditorsPartLength
      else [] in
    Ok {| alpha1 := nth 0 baseProofArray [];
          alpha2 := nth 1 baseProofArray [];
          alpha3List := slice baseProofArray 2 (2 + VEILED_BALANCE_CHUNK_SIZE);
          alpha4List := slice baseProofArray 6 (6 + VEILED_BALANCE_CHUNK_SIZE);
          alpha5 := nth 10 baseProofArray [];
          alpha6List := slice baseProofArray 11 (11 + VEILED_BALANCE_CHUNK_SIZE);
          X1 := nth 15 baseProofArray [];
          X2List := slice baseProofArray 16 (16 + VEILED_BALANCE_CHUNK_SIZE);
          X3List := slice baseProofArray 20 (20 + VEILED_BALANCE_CHUNK_SIZE);
          X4List := slice baseProofArray 24 (24 + VEILED_BALANCE_CHUNK_SIZE);
          X5 := nth 28 baseProofArray [];
          X6List := skipn 29 baseProofArray;
          X7List := Some X7List |}.

Section VeiledTransferBuilder.
Context {G : RistrettoGroup}.
Variable randomBytes : nat -> bytes.
Variable sha512 : bytes -> bytes.

(** The range-proof backend [generateRangeZKP({v, r, valBase, randBase})],
    returning [(proof, commitment)]. *)
Variable generateRangeZKP : Z -> bytes -> bytes -> bytes -> bytes * bytes.

(** What [amountToChunks] does when it is handed [undefined]: the helper is
    not part of the sources, so its outcome on that argument is left open. *)
Variable amountToChunksUndefined : Result (list Z).

Record VeiledTransfer : Type := {
  isInitialized : bool;
  twistedEd25519PrivateKey : TwistedEd25519PrivateKey;
  recipientPublicKey : TwistedEd25519PublicKey;
  recipientPublicKeyU8 : bytes;
  auditorPublicKeys : option (list TwistedEd25519PublicKey);
  auditorsU8PublicKeys : list bytes;
  auditorsDList : list (list bytes);
  encryptedActualBalance : list TwistedElGamalCiphertext;
  chunkedAmountToTransfer : list Z;
  chunkedBalanceAfterTransfer : list Z;
  amountToTransfer : Z;
  balanceAfterTransfer : option Z;
  encryptedActualBalanceAfterTransfer : option (list TwistedElGamalCiphertext);
  encryptedAmountByRecipient : list TwistedElGamalCiphertext;
  randomness : option (list Z)
}.

(** The builder keeps its randomness as [bigint]s, while [encryptWithPK]
    declares [random?: Uint8Array].  The embedding hands a scalar over in the
    32-byte little-endian form in which [genRangeProof] hands the same
    scalars to the range prover ([numberToBytesLE(this.randomness[i], 32)]);
    an absent entry is [undefined], for which [encryptWithPK] draws. *)
Definition randomArg (rs : list Z) (i : nat) : option bytes :=
  option_map (fun r => numberToBytesLE r 32) (nth_error rs i).

(** [amountToChunks(x, n)] where [x] may be [undefined]. *)
Definition amountToChunksOpt (amount : option Z) (chunksCount : nat) : Result (list Z) :=
  match amount with
  | Some a => Ok (amountToChunks a chunksCount)
  | None => amountToChunksUndefined
  end.

(** The constructor.  [genList] is what [ed25519GenListOfRandom()] returns
    if it is called.  A class field declared without an initialiser is
    [undefined] until the constructor assigns it: that is the value of
    [this.randomness] and of [this.balanceAfterTransfer] wherever the body
    reads them before line [this.randomness = ...]. *)
Definition constructor
  (twistedEd25519PrivateKey_ : TwistedEd25519PrivateKey)
  (encryptedActualBalance_ : list TwistedElGamalCiphertext)
  (amountToTransfer_ : Z)
  (recipientPublicKey_ : TwistedEd25519PublicKey)
  (auditorPublicKeys_ : option (list TwistedEd25519PublicKey))
  (randomness_ : option (list Z))
  (genList : list Z) : Result VeiledTransfer :=
  let this_randomness : option (list Z) := None in
  let this_balanceAfterTransfer : option Z := None in
  let recipientPublicKeyU8_ := publicKeyToU8 recipientPublicKey_ in
  let auditorsU8PublicKeys_ :=
    match auditorPublicKeys_ with
    | Some pks => map publicKeyToU8 pks
    | None => []
    end in
  auditorsDList_ <-
    mapM (fun pk =>
            pkRist <- pointFromHex pk ;;
            rs <- orThrow this_randomness UndefinedDereference ;;
            Ok (map (fun r => toRawBytes (multiply pkRist r)) rs))
         auditorsU8PublicKeys_ ;;
  let chunkedAmountToTransfer_ := amountToChunks amountToTransfer_ VEILED_BALANCE_CHUNK_SIZE in
  chunkedBalanceAfterTransfer_ <-
    amountToChunksOpt this_balanceAfterTransfer VEILED_BALANCE_CHUNK_SIZE ;;
  encryptedAmountByRecipient_ <-
    mapiM (fun chunk i =>
             rs <- orThrow this_randomness UndefinedDereference ;;
             encryptWithPK randomBytes chunk {| pk_bytes := recipientPublicKeyU8_ |}
                           (randomArg rs i))
          0%nat chunkedAmountToTransfer_ ;;
  Ok {| isInitialized := false;
        twistedEd25519PrivateKey := twistedEd25519PrivateKey_;
        recipientPublicKey := recipientPublicKey_;
        recipientPublicKeyU8 := recipientPublicKeyU8_;
        auditorPublicKeys := auditorPublicKeys_;
        auditorsU8PublicKeys := auditorsU8PublicKeys_;
        auditorsDList := auditorsDList_;
        encryptedActualBalance := encryptedActualBalance_;
        chunkedAmountToTransfer := chunkedAmountToTransfer_;
        chunkedBalanceAfterTransfer := chunkedBalanceAfterTransfer_;
        amountToTransfer := amountToTransfer_;
        balanceAfterTransfer := None;
        encryptedActualBalanceAfterTransfer := None;
        encryptedAmountByRecipient := encryptedAmountByRecipient_;
        randomness := Some (match randomness_ with Some r => r | None => genList end) |}.

Definition TRANSFER_FIAT_SHAMIR_SIGMA_DST : String.string :=
  "AptosVeiledCoin/TransferSubproofFiatShamir".

Definition set_balanceAfterTransfer (v : Z) (this : VeiledTransfer) : VeiledTransfer :=
  {| isInitialized := isInitialized this;
     twistedEd25519PrivateKey := twistedEd25519PrivateKey this;
     recipientPublicKey := recipientPublicKey this;
     recipientPublicKeyU8 := recipientPublicKeyU8 this;
     auditorPublicKeys := auditorPublicKeys this;
     auditorsU8PublicKeys := auditorsU8PublicKeys this;
     auditorsDList := auditorsDList this;
     encryptedActualBalance := encryptedActualBalance this;
     chunkedAmountToTransfer := chunkedAmountToTransfer this;
     chunkedBalanceAfterTransfer := chunkedBalanceAfterTransfer this;
     amountToTransfer := amountToTransfer this;
     balanceAfterTransfer := Some v;
     encryptedActualBalanceAfterTransfer := encryptedActualBalanceAfterTransfer this;
     encryptedAmountByRecipient := encryptedAmountByRecipient this;
     randomness := randomness this |}.

Definition set_initialized (cts : list TwistedElGamalCiphertext) (this : VeiledTransfer)
  : VeiledTransfer :=
  {| isInitialized := true;
     twistedEd25519PrivateKey := twistedEd25519PrivateKey this;
     recipientPublicKey := recipientPublicKey this;
     recipientPublicKeyU8 := recipientPublicKeyU8 this;
     auditorPublicKeys := auditorPublicKeys this;
     auditorsU8PublicKeys := auditorsU8PublicKeys this;
     auditorsDList := auditorsDList this;
     encryptedActualBalance := encryptedActualBalance this;
     chunkedAmountToTransfer := chunkedAmountToTransfer this;
     chunkedBalanceAfterTransfer := chunkedBalanceAfterTransfer this;
     amountToTransfer := amountToTransfer this;
     balanceAfterTransfer := balanceAfterTransfer this;
     encryptedActualBalanceAfterTransfer := Some cts;
     encryptedAmountByRecipient := encryptedAmountByRecipient this;
     randomness := randomness this |}.

(** [init()]: the outcome and the object as the call leaves it. *)
Definition init (this : VeiledTransfer) : Result unit * VeiledTransfer :=
  if negb (isInitialized this) then (Throw NotInitialized, this) else
  match mapM (fun el =>
                decryptWithPK el (twistedEd25519PrivateKey this)
                  (Some {| range_start := Some 0; range_end := Some 1000 |}))
             (encryptedActualBalance this) with
  | Throw e => (Throw e, this)
  | Ok decryptedBalanceChunks =>
      let decryptedBalance := chunksToAmount decryptedBalanceChunks in
      let newBalance := decryptedBalance - amountToTransfer this in
      let this1 := set_balanceAfterTransfer newBalance this in
      let chunkedBalanceAfterWithdraw := amountToChunks newBalance VEILED_BALANCE_CHUNK_SIZE in
      match mapiM (fun chunk i =>
                     pk <- publicKey (twistedEd25519PrivateKey this1) ;;
                     rs <- orThrow (randomness this1) UndefinedDereference ;;
                     encryptWithPK randomBytes chunk pk (randomArg rs i))
                  0%nat chunkedBalanceAfterWithdraw with
      | Throw e => (Throw e, this1)
      | Ok cts => (Ok tt, set_initialized cts this1)
      end
  end.

(** The draws of [ed25519GenRandom()] and [ed25519GenListOfRandom()] made by
    one call of [genSigmaProof], in the order of the calls. *)
Record TransferNonces : Type := {
  x1 : Z;
  x2 : Z;
  x3List : list Z;
  x4List : list Z;
  x5 : Z;
  x6List : list Z
}.

(** [pts.reduce((acc, D, i) => acc.add(D.multiply(2n ** (BigInt(i) * CHUNK_BITS_BI))), acc0)] *)
Fixpoint weightedSum (i : nat) (pts : list RistPoint) (acc : RistPoint) : RistPoint :=
  match pts with
  | [] => acc
  | D :: rest =>
      weightedSum (S i) rest (add acc (multiply D (2 ^ (Z.of_nat i * CHUNK_BITS_BI))))
  end.

(** [cts.map(({ C, D }) => [C.toRawBytes(), D.toRawBytes()]).flat()] *)
Definition ciphertextBytes (cts : list TwistedElGamalCiphertext) : list bytes :=
  flat_map (fun ct => [toRawBytes (ct_C ct); toRawBytes (ct_D ct)]) cts.

(** The four guards at the head of [genSigmaProof]. *)
Definition genSigmaProofGuards (this : VeiledTransfer) : Result Z :=
  if negb (isInitialized this) then Throw NotInitialized else
  if match randomness this with
     | Some rs => negb (Nat.eqb (length rs) VEILED_BALANCE_CHUNK_SIZE)
     | None => false
     end
  then Throw InvalidRandomnessLength else
  if amountToTransfer this >? 2 ^ (2 * CHUNK_BITS_BI) - 1 then Throw AmountTooLarge else
  match balanceAfterTransfer this with
  | None => Throw BalanceAfterTransferUndefined
  | Some b => if b =? 0 then Throw BalanceAfterTransferUndefined else Ok b
  end.

Definition genSigmaProof (this : VeiledTransfer) (nonces : TransferNonces)
  : Result VeiledTransferSigmaProof :=
  balanceAfterTransfer_ <- genSigmaProofGuards this ;;
  let x1 := x1 nonces in
  let x2 := x2 nonces in
  let x3List := x3List nonces in
  let x4List := x4List nonces in
  let x5 := x5 nonces in
  let x6List := x6List nonces in
  senderPKRistretto <- pointFromHex (sk_toUint8Array (twistedEd25519PrivateKey this)) ;;
  recipientPKRistretto <- pointFromHex (recipientPublicKeyU8 this) ;;
  newEncryptedBalance <-
    mapiM (fun chunk i =>
             pk <- publicKey (twistedEd25519PrivateKey this) ;;
             rs <- orThrow (randomness this) UndefinedDereference ;;
             encryptWithPK randomBytes chunk pk (randomArg rs i))
          0%nat (chunkedBalanceAfterTransfer this) ;;
  let DBal := weightedSum 0 (map ct_D (encryptedActualBalance this)) ZERO in
  let DNewBal := weightedSum 0 (map ct_D newEncryptedBalance) ZERO in
  let X1 := toRawBytes
              (subtract (add (multiply BASE x1) (multiply DBal x2))
                        (multiply DNewBal x2)) in
  let X2List := map (fun x3 => toRawBytes (multiply senderPKRistretto x3)) x3List in
  let X3List := map (fun x3 => toRawBytes (multiply recipientPKRistretto x3)) x3List in
  X4List <-
    mapiM (fun x4 i =>
             x3 <- at_index x3List i ;;
             Ok (toRawBytes (add (multiply BASE x4) (multiply H_RISTRETTO x3))))
          0%nat x4List ;;
  let X5 := toRawBytes (multiply H_RISTRETTO x5) in
  X6List <-
    mapiM (fun x6 i =>
             x3 <- at_index x3List i ;;
             Ok (toRawBytes (add (multiply BASE x6) (multiply H_RISTRETTO x3))))
          0%nat x6List ;;
  X7List <-
    mapM (fun pk =>
            mapM (fun x3 =>
                    pkRist <- pointFromHex pk ;;
                    Ok (toRawBytes (multiply pkRist x3)))
                 x3List)
         (auditorsU8PublicKeys this) ;;
  senderPublicKey <- publicKey (twistedEd25519PrivateKey this) ;;
  let p := genFiatShamirChallenge sha512
    ([ utf8ToBytes TRANSFER_FIAT_SHAMIR_SIGMA_DST;
       toRawBytes BASE;
       toRawBytes H_RISTRETTO;
       pk_toUint8Array senderPublicKey;
       recipientPublicKeyU8 this ]
       ++ ciphertextBytes (encryptedActualBalance this)
       ++ ciphertextBytes newEncryptedBalance
       ++ ciphertextBytes (encryptedAmountByRecipient this)
       ++ concat (auditorsDList this)
       ++ [X1]
       ++ X2List
       ++ X3List
       ++ X4List
       ++ [X5]
       ++ X6List
       ++ concat X7List) in
  let sLE := bytesToNumberLE (sk_toUint8Array (twistedEd25519PrivateKey this)) in
  invertSLE <- invertN sLE ;;
  let alpha1 := modN (x1 - p * balanceAfterTransfer_) in
  let alpha2 := modN (x2 - p * sLE) in
  alpha3List <-
    mapiM (fun x3 i =>
             rs <- orThrow (randomness this) UndefinedDereference ;;
             r <- at_index rs i ;;
             Ok (modN (x3 - p * r)))
          0%nat x3List ;;
  alpha4List <-
    mapiM (fun x4 i =>
             c <- at_index (chunkedAmountToTransfer this) i ;;
             Ok (modN (x4 - p * c)))
          0%nat x4List ;;
  let alpha5 := modN (x5 - p * invertSLE) in
  alpha6List <-
    mapiM (fun x6 i =>
             c <- at_index (chunkedBalanceAfterTransfer this) i ;;
             Ok (modN (x6 - p * c)))
          0%nat x6List ;;
  Ok {| alpha1 := numberToBytesLE alpha1 32;
        alpha2 := numberToBytesLE alpha2 32;
        alpha3List := map (fun a => numberToBytesLE a 32) alpha3List;
        alpha4List := map (fun a => numberToBytesLE a 32) alpha4List;
        alpha5 := numberToBytesLE alpha5 32;
        alpha6List := map (fun a => numberToBytesLE a 32) alpha6List;
        X1 := X1;
        X2List := X2List;
        X3List := X3List;
        X4List := X4List;
        X5 := X5;
        X6List := X6List;
        X7List := Some (concat X7List) |}.

Record TransferRangeProofs : Type := {
  rangeProofAmount : list bytes;
  rangeProofNewBalance : list bytes
}.

Definition genRangeProof (this : VeiledTransfer) : Result TransferRangeProofs :=
  if negb (isInitialized this) then Throw NotInitialized else
  match encryptedActualBalanceAfterTransfer this with
  | None => Throw EncryptedBalanceAfterTransferUndefined
  | Some encryptedAfter =>
      match balanceAfterTransfer this with
      | None => Throw BalanceAfterTransferUndefined
      | Some 0 => Throw BalanceAfterTransferUndefined
      | Some balanceAfter =>
          rangeProofAmount_ <-
            mapiM (fun chunk i =>
                     rs <- orThrow (randomness this) UndefinedDereference ;;
                     r <- at_index rs i ;;
                     Ok (generateRangeZKP chunk (numberToBytesLE r 32)
                           (toRawBytes BASE) (toRawBytes H_RISTRETTO)))
                  0%nat (amountToChunks (amountToTransfer this) VEILED_BALANCE_CHUNK_SIZE) ;;
          rangeProofNewBalance_ <-
            mapiM (fun chunk i =>
                     ct <- at_index encryptedAfter i ;;
                     Ok (generateRangeZKP chunk
                           (sk_toUint8Array (twistedEd25519PrivateKey this))
                           (toRawBytes BASE) (toRawBytes (ct_D ct))))
                  0%nat (amountToChunks balanceAfter VEILED_BALANCE_CHUNK_SIZE) ;;
          Ok {| rangeProofAmount := map fst rangeProofAmount_;
                rangeProofNewBalance := map fst rangeProofNewBalance_ |}
      end
  end.

(** The three methods that [init] is meant to enable, as calls on an
    object; [run] threads the object through a sequence of calls and
    collects the outcomes. *)
Inductive Call : Type :=
| CallInit
| CallGenSigmaProof (nonces : TransferNonces)
| CallGenRangeProof.

Inductive Outcome : Type :=
| Returned
| Threw (e : Error).

Definition outcomeOf {A : Type} (r : Result A) : Outcome :=
  match r with
  | Ok _ => Returned
  | Throw e => Threw e
  end.

Definition step (this : VeiledTransfer) (c : Call) : Outcome * VeiledTransfer :=
  match c with
  | CallInit => let '(r, this') := init this in (outcomeOf r, this')
  | CallGenSigmaProof nonces => (outcomeOf (genSigmaProof this nonces), this)
  | CallGenRangeProof => (outcomeOf (genRangeProof this), this)
  end.

Fixpoint run (this : VeiledTransfer) (calls : list Call) : list Outcome * VeiledTransfer :=
  match calls with
  | [] => ([], this)
  | c :: rest =>
      let '(o, this') := step this c in
      let '(os, this'') := run this' rest in
      (o :: os, this'')
  end.

End VeiledTransferBuilder.

Section VeiledTransferRangeCheck.
Context {G : RistrettoGroup}.

(** The range-proof backend [verifyRangeZKP({proof, commitment, valBase,
    randBase})]. *)
Variable verifyRangeZKP : bytes -> bytes -> bytes -> bytes -> bool.

(** [verifyRangeProof({rangeProofAmount, rangeProofNewBalance})]: the two
    maps build the list of validations, [every] reads it. *)
Definition verifyRangeProof (this : VeiledTransfer)
  (rangeProofAmount_ rangeProofNewBalance_ : list bytes) : Result bool :=
  if negb (isInitialized this) then Throw NotInitialized else
  match encryptedActualBalanceAfterTransfer this with
  | None => Throw EncryptedBalanceAfterTransferUndefined
  | Some encryptedAfter =>
      amountValidations <-
        mapiM (fun proof i =>
                 ct <- at_index (encryptedAmountByRecipient this) i ;;
                 Ok (verifyRangeZKP proof (toRawBytes (ct_C ct))
                       (toRawBytes BASE) (toRawBytes H_RISTRETTO)))
              0%nat rangeProofAmount_ ;;
      newBalanceValidations <-
        mapiM (fun proof i =>
                 ct <- at_index encryptedAfter i ;;
                 Ok (verifyRangeZKP proof (toRawBytes (ct_C ct))
                       (toRawBytes BASE) (toRawBytes (ct_D ct))))
              0%nat rangeProofNewBalance_ ;;
      let rangeProofsValidations := amountValidations ++ newBalanceValidations in
      Ok (forallb (fun isValid => isValid) rangeProofsValidations)
  end.

End VeiledTransferRangeCheck.

(* ------------------------------------------------------------------ *)
(** ** Vocabulary of the statements *)

Section Vocabulary.
Context {G : RistrettoGroup}.

(** Points of the form [a.G + b.H]. *)
Definition lin (a b : Z) : RistPoint :=
  add (multiply BASE a) (multiply H_RISTRETTO b).




(** [randomnessLengthOk] is the negation of
    [this.randomness && this.randomness.length !== VEILED_BALANCE_CHUNK_SIZE]. *)
Definition randomnessLengthOk (this : VeiledTransfer) : Prop :=
  match randomness this with
  | Some rs => length rs = VEILED_BALANCE_CHUNK_SIZE
  | None => True
  end.

End Vocabulary.

(** [c] does not throw the exception [e]. *)
Definition neverThrows {A : Type} (e : Error) (c : Result A) : Prop := c <> Throw e.

Definition field32 (f : bytes) : Prop := length f = PROOF_CHUNK_SIZE.

(** A list of [VEILED_BALANCE_CHUNK_SIZE] fields of 32 bytes. *)
Definition chunkFields (fs : list bytes) : Prop :=
  length fs = VEILED_BALANCE_CHUNK_SIZE /\ Forall field32 fs.

(** The proofs of the claim: scalar and point fields of 32 bytes, per-chunk
    lists of 4 such fields, and an auditor list of 32-byte fields. *)
Definition wellFormedTransferProof (proof : VeiledTransferSigmaProof) : Prop :=
  field32 (alpha1 proof) /\ field32 (alpha2 proof) /\
  chunkFields (alpha3List proof) /\ chunkFields (alpha4List proof) /\
  field32 (alpha5 proof) /\ chunkFields (alpha6List proof) /\
  field32 (X1 proof) /\ chunkFields (X2List proof) /\
  chunkFields (X3List proof) /\ chunkFields (X4List proof) /\
  field32 (X5 proof) /\ chunkFields (X6List proof) /\
  exists x7, X7List proof = Some x7 /\ Forall field32 x7.

(** The 33 fields before the auditor tail, in wire order. *)
Definition baseFields (proof : VeiledTransferSigmaProof) : list bytes :=
  [alpha1 proof; alpha2 proof]
    ++ alpha3List proof ++ alpha4List proof
    ++ [alpha5 proof] ++ alpha6List proof
    ++ [X1 proof] ++ X2List proof ++ X3List proof ++ X4List proof
    ++ [X5 proof] ++ X6List proof.

(** The operation that undoes [operation]. *)
Definition opposite (operation : ModifyCiphertextOperation) : ModifyCiphertextOperation :=
  match operation with
  | OpAdd => OpSubtract
  | OpSubtract => OpAdd
  end.




(** The public-key object whose bytes encode the point [P]. *)
Definition keyOf {G : RistrettoGroup} (P : RistPoint) : TwistedEd25519PublicKey :=
  {| pk_bytes := toRawBytes P |}.


(* ================================================================== *)
(** * Facts about the embedding *)

(** ** The [Result] monad *)

Lemma bind_Ok_inv {A B : Type} (c : Result A) (k : A -> Result B) (b : B) :
  bind c k = Ok b -> exists a, c = Ok a /\ k a = Ok b.
Proof.
  destruct c as [a|e]; simpl; intros Hb; [exists a; auto | discriminate].
Qed.

(** ** Bytes *)

Lemma Z_of_byte_range (b : byte) : 0 <= Z_of_byte b < 256.
Proof.
  unfold Z_of_byte. pose proof (Byte.to_N_bounded b). lia.
Qed.

Lemma Z_of_byte_of_Z (z : Z) : Z_of_byte (byte_of_Z z) = z mod 256.
Proof.
  unfold Z_of_byte, byte_of_Z.
  assert (Hr : 0 <= z mod 256 < 256) by (apply Z.mod_pos_bound; lia).
  destruct (Byte.of_N (Z.to_N (z mod 256))) as [b|] eqn:E.
  - apply Byte.to_of_N in E. rewrite E. rewrite Z2N.id; lia.
  - apply Byte.of_N_None_iff in E. lia.
Qed.

Lemma numberToBytesLE_length (n : Z) (len : nat) :
  length (numberToBytesLE n len) = len.
Proof.
  revert n. induction len as [|l IH]; intros n; simpl; [reflexivity|].
  now rewrite IH.
Qed.

Lemma bytesToNumberLE_numberToBytesLE (len : nat) :
  forall n, bytesToNumberLE (numberToBytesLE n len) = n mod 256 ^ Z.of_nat len.
Proof.
  induction len as [|l IH]; intros n.
  - simpl. now rewrite Z.mod_1_r.
  - cbn [numberToBytesLE bytesToNumberLE].
    rewrite Z_of_byte_of_Z, IH.
    rewrite Nat2Z.inj_succ, Z.pow_succ_r by lia.
    rewrite Z.rem_mul_r; [reflexivity|lia|].
    apply Z.pow_pos_nonneg; lia.
Qed.

Lemma bytesToNumberLE_numberToBytesLE_small (n : Z) (len : nat) :
  0 <= n < 256 ^ Z.of_nat len ->
  bytesToNumberLE (numberToBytesLE n len) = n.
Proof.
  intros Hn. rewrite bytesToNumberLE_numberToBytesLE. now apply Z.mod_small.
Qed.

Lemma bytesToNumberLE_range (bs : bytes) :
  0 <= bytesToNumberLE bs < 256 ^ Z.of_nat (length bs).
Proof.
  induction bs as [|b bs IH].
  - simpl. lia.
  - cbn [bytesToNumberLE length].
    rewrite Nat2Z.inj_succ, Z.pow_succ_r by lia.
    pose proof (Z_of_byte_range b). lia.
Qed.

(** ** Scalars *)

Lemma CURVE_n_pos : 2 ^ 252 < CURVE_n < 2 ^ 253.
Proof. unfold CURVE_n. split; reflexivity. Qed.

Lemma CURVE_n_gt : 2 ^ 32 < CURVE_n /\ CURVE_n < 256 ^ 32.
Proof. unfold CURVE_n. split; reflexivity. Qed.



Lemma invertN_Ok (a : Z) :
  Z.gcd a CURVE_n = 1 ->
  invertN a = Ok (Z.invmod a CURVE_n) /\ (Z.invmod a CURVE_n * a) mod CURVE_n = 1.
Proof.
  intros Hg. pose proof CURVE_n_pos as Hn. unfold invertN.
  assert (Hg' : Z.gcd (a mod CURVE_n) CURVE_n = 1).
  { rewrite Z.gcd_mod by lia. rewrite Z.gcd_comm. exact Hg. }
  rewrite Hg'. split; [reflexivity|].
  apply Z.invmod_coprime; [lia|exact Hg].
Qed.

(** ** Congruences modulo [CURVE_n], decided in the ring [Zmod CURVE_n] *)

Abbreviation Fn := (Zmod CURVE_n).
Abbreviation toFn := (Zmod.of_Z CURVE_n).

Add Ring FnRing : (Zmod.ring_theory CURVE_n).

Lemma congr_toFn (a b : Z) : toFn a = toFn b <-> a mod CURVE_n = b mod CURVE_n.
Proof. apply Zmod.of_Z_inj. Qed.



(** ** Consequences of the group interface *)

Section GroupFacts.
Context {G : RistrettoGroup}.


Lemma subtract_self (Q : RistPoint) : add Q (subtract ZERO Q) = ZERO.
Proof. rewrite add_comm. apply subtract_add. Qed.

Lemma add_cancel_r (A B Q : RistPoint) : add A Q = add B Q -> A = B.
Proof.
  intros E.
  rewrite <- (add_ZERO A), <- (add_ZERO B), <- (subtract_self Q).
  rewrite !add_assoc, E. reflexivity.
Qed.

Lemma multiply_ZERO (k : Z) : multiply ZERO k = ZERO.
Proof.
  rewrite <- (multiply_0 ZERO) at 1.
  rewrite multiply_multiply, Z.mul_0_l. apply multiply_0.
Qed.


Lemma multiply_congr (P : RistPoint) (a b : Z) :
  a mod CURVE_n = b mod CURVE_n -> multiply P a = multiply P b.
Proof.
  intros E. pose proof CURVE_n_pos as Hn.
  rewrite (Z.div_mod a CURVE_n), (Z.div_mod b CURVE_n), E by lia.
  rewrite !multiply_plus. f_equal.
  rewrite <- !multiply_multiply, !multiply_order, !multiply_ZERO. reflexivity.
Qed.

Lemma multiply_modN (P : RistPoint) (a : Z) : multiply P (modN a) = multiply P a.
Proof.
  apply multiply_congr. unfold modN. apply Z.mod_mod.
  pose proof CURVE_n_pos; lia.
Qed.




Lemma pointFromHex_toRawBytes (P : RistPoint) : pointFromHex (toRawBytes P) = Ok P.
Proof. unfold pointFromHex. now rewrite fromHex_toRawBytes. Qed.









Lemma lin_ZERO : ZERO = lin 0 0.
Proof. unfold lin. now rewrite !multiply_0, add_ZERO. Qed.

End GroupFacts.

(* ------------------------------------------------------------------ *)
(** ** A group that meets the interface

    The integers modulo [CURVE_n] under addition, with [BASE = 1],
    [H_RISTRETTO = 2] and the 32-byte little-endian encoding.  It shows that
    the laws of [RistrettoGroup] can be met, and it is the group in which
    the statements below are run on concrete inputs. *)

Definition Zl_multiply (P : Fn) (k : Z) : Fn := Zmod.mul P (toFn k).

Definition Zl_toRawBytes (P : Fn) : bytes := numberToBytesLE (Zmod.to_Z P) 32.

Definition Zl_fromHex (bs : bytes) : option Fn :=
  if Nat.eqb (length bs) 32 && (bytesToNumberLE bs <? CURVE_n)
  then Some (toFn (bytesToNumberLE bs))
  else None.

Lemma Zl_subtract_add (P Q : Fn) : Zmod.add (Zmod.sub P Q) Q = P.
Proof. ring. Qed.

Lemma Zl_add_ZERO (P : Fn) : Zmod.add P Zmod.zero = P.
Proof. ring. Qed.

Lemma Zl_multiply_0 (P : Fn) : Zl_multiply P 0 = Zmod.zero.
Proof. unfold Zl_multiply. rewrite Zmod.of_Z_0. ring. Qed.

Lemma Zl_multiply_1 (P : Fn) : Zl_multiply P 1 = P.
Proof. unfold Zl_multiply. rewrite Zmod.of_Z_1. ring. Qed.

Lemma Zl_multiply_plus (P : Fn) (a b : Z) :
  Zl_multiply P (a + b) = Zmod.add (Zl_multiply P a) (Zl_multiply P b).
Proof. unfold Zl_multiply. rewrite Zmod.of_Z_add. ring. Qed.

Lemma Zl_multiply_multiply (P : Fn) (a b : Z) :
  Zl_multiply (Zl_multiply P a) b = Zl_multiply P (a * b).
Proof. unfold Zl_multiply. rewrite Zmod.of_Z_mul. ring. Qed.

Lemma Zl_multiply_add (P Q : Fn) (a : Z) :
  Zl_multiply (Zmod.add P Q) a = Zmod.add (Zl_multiply P a) (Zl_multiply Q a).
Proof. unfold Zl_multiply. ring. Qed.

Lemma Zl_toFn_CURVE_n : toFn CURVE_n = Zmod.zero.
Proof.
  rewrite <- Zmod.of_Z_0. apply congr_toFn.
  rewrite Z.mod_same, Z.mod_0_l; pose proof CURVE_n_pos; lia.
Qed.

Lemma Zl_multiply_order (P : Fn) : Zl_multiply P CURVE_n = Zmod.zero.
Proof. unfold Zl_multiply. rewrite Zl_toFn_CURVE_n. ring. Qed.

Lemma Zl_BASE_order (k : Z) : Zl_multiply Zmod.one k = Zmod.zero -> k mod CURVE_n = 0.
Proof.
  unfold Zl_multiply. rewrite Zmod.mul_1_l, <- Zmod.of_Z_0. intros E.
  apply congr_toFn in E. rewrite E. apply Z.mod_0_l.
  pose proof CURVE_n_pos; lia.
Qed.

Lemma Zl_H_order (k : Z) : Zl_multiply (toFn 2) k = Zmod.zero -> k mod CURVE_n = 0.
Proof.
  pose proof CURVE_n_pos as Hn.
  unfold Zl_multiply. rewrite <- Zmod.of_Z_mul, <- Zmod.of_Z_0. intros E.
  apply congr_toFn in E. rewrite Z.mod_0_l in E by lia.
  apply Z.mod_divide in E; [|lia].
  apply Z.mod_divide; [lia|].
  apply (Z.gauss CURVE_n 2 k E). reflexivity.
Qed.

Lemma Zl_toRawBytes_length (P : Fn) : length (Zl_toRawBytes P) = 32%nat.
Proof. apply numberToBytesLE_length. Qed.

Lemma Zl_fromHex_toRawBytes (P : Fn) : Zl_fromHex (Zl_toRawBytes P) = Some P.
Proof.
  pose proof CURVE_n_pos as Hn. pose proof CURVE_n_gt as Hn'.
  assert (HP : 0 <= Zmod.to_Z P < CURVE_n) by (apply Zmod.unsigned_pos_bound; lia).
  unfold Zl_fromHex, Zl_toRawBytes.
  rewrite numberToBytesLE_length, Nat.eqb_refl.
  rewrite bytesToNumberLE_numberToBytesLE_small
    by (change (Z.of_nat 32) with 32; lia).
  replace (Zmod.to_Z P <? CURVE_n) with true by (symmetry; apply Z.ltb_lt; lia).
  simpl. f_equal. apply Zmod.of_Z_unsigned.
Qed.

Definition Zl_group : RistrettoGroup :=
  {| RistPoint := Fn;
     ZERO := Zmod.zero;
     BASE := Zmod.one;
     H_RISTRETTO := toFn 2;
     add := Zmod.add;
     subtract := Zmod.sub;
     multiply := Zl_multiply;
     equals := Zmod.eqb;
     toRawBytes := Zl_toRawBytes;
     fromHex := Zl_fromHex;
     add_assoc := @Zmod.add_assoc CURVE_n;
     add_comm := @Zmod.add_comm CURVE_n;
     add_ZERO := Zl_add_ZERO;
     subtract_add := Zl_subtract_add;
     multiply_0 := Zl_multiply_0;
     multiply_1 := Zl_multiply_1;
     multiply_plus := Zl_multiply_plus;
     multiply_multiply := Zl_multiply_multiply;
     multiply_add := Zl_multiply_add;
     multiply_order := Zl_multiply_order;
     BASE_order := Zl_BASE_order;
     H_order := Zl_H_order;
     equals_spec := @Zmod.eqb_eq CURVE_n;
     toRawBytes_length := Zl_toRawBytes_length;
     fromHex_toRawBytes := Zl_fromHex_toRawBytes |}.

(* ------------------------------------------------------------------ *)
(** ** Concrete inputs in [Zl_group] *)

(** Inputs on which the statements are run: the key whose scalar is 7, a
    32-byte randomness, and a byte source for [randomBytes]. *)
Definition sk7 : TwistedEd25519PrivateKey := {| sk_bytes := numberToBytesLE 7 32 |}.
Definition random12345 : bytes := numberToBytesLE 12345 32.
Definition random777 : bytes := numberToBytesLE 777 32.
Definition zeroBytes (n : nat) : bytes := numberToBytesLE 0 n.



(** The encryption of 3 under the key of [sk7], in [Zl_group]: the point
    [C] is [3.G + 12345.H], the point [D] is [12345.P]. *)
Definition ciphertextOf3 : TwistedElGamalCiphertext (G := Zl_group) :=
  {| ct_C := add (multiply BASE 3) (multiply H_RISTRETTO 12345);
     ct_D := multiply (multiply H_RISTRETTO (Z.invmod 7 CURVE_n)) 12345 |}.

(** A stand-in for [sha512] on concrete runs: the first 64 bytes of the
    zero-padded input. *)
Definition toyHash (bs : bytes) : bytes := firstn 64 (bs ++ zeroBytes 64).

Definition recipientKey : TwistedEd25519PublicKey :=
  {| pk_bytes := numberToBytesLE 10 32 |}.
Definition auditorKey : TwistedEd25519PublicKey :=
  {| pk_bytes := numberToBytesLE 6 32 |}.

(** A concrete builder state in [Zl_group], as [create] is meant to leave
    it for a transfer of 10 out of a balance of 70 (and, with the flag
    false, as the constructor's field initialiser leaves the flag). *)
Definition encryptionOf (m r : Z) (P : RistPoint (RistrettoGroup := Zl_group))
  : TwistedElGamalCiphertext (G := Zl_group) :=
  {| ct_C := add (multiply BASE m) (multiply H_RISTRETTO r); ct_D := multiply P r |}.

Definition senderPoint : RistPoint (RistrettoGroup := Zl_group) :=
  multiply H_RISTRETTO (Z.invmod 7 CURVE_n).
Definition recipientPoint : RistPoint (RistrettoGroup := Zl_group) :=
  multiply H_RISTRETTO 5.

Definition exampleStateFor (initialized : bool) (amount : Z)
  : VeiledTransfer (G := Zl_group) :=
  {| isInitialized := initialized;
     twistedEd25519PrivateKey := sk7;
     recipientPublicKey := recipientKey;
     recipientPublicKeyU8 := publicKeyToU8 recipientKey;
     auditorPublicKeys := None;
     auditorsU8PublicKeys := [];
     auditorsDList := [];
     encryptedActualBalance :=
       [encryptionOf 70 11 senderPoint; encryptionOf 0 12 senderPoint;
        encryptionOf 0 13 senderPoint; encryptionOf 0 14 senderPoint];
     chunkedAmountToTransfer := [10; 0; 0; 0];
     chunkedBalanceAfterTransfer := [60; 0; 0; 0];
     amountToTransfer := amount;
     balanceAfterTransfer := Some 60;
     encryptedActualBalanceAfterTransfer :=
       Some [encryptionOf 60 101 senderPoint; encryptionOf 0 102 senderPoint;
             encryptionOf 0 103 senderPoint; encryptionOf 0 104 senderPoint];
     encryptedAmountByRecipient :=
       [encryptionOf 10 101 recipientPoint; encryptionOf 0 102 recipientPoint;
        encryptionOf 0 103 recipientPoint; encryptionOf 0 104 recipientPoint];
     randomness := Some [101; 102; 103; 104] |}.

Definition exampleState (initialized : bool) : VeiledTransfer (G := Zl_group) :=
  exampleStateFor initialized 10.

Definition toyRangeZKP (v : Z) (r valBase randBase : bytes) : bytes * bytes :=
  (numberToBytesLE v 4, r).

Definition nonces1 : TransferNonces :=
  {| x1 := 1001; x2 := 1002; x3List := [1003; 1004; 1005; 1006];
     x4List := [1007; 1008; 1009; 1010]; x5 := 1011;
     x6List := [1012; 1013; 1014; 1015] |}.


Definition exampleProof : VeiledTransferSigmaProof :=
  let f := fun n => numberToBytesLE n 32 in
  {| alpha1 := f 1; alpha2 := f 2;
     alpha3List := [f 3; f 4; f 5; f 6];
     alpha4List := [f 7; f 8; f 9; f 10];
     alpha5 := f 11;
     alpha6List := [f 12; f 13; f 14; f 15];
     X1 := f 16;
     X2List := [f 17; f 18; f 19; f 20];
     X3List := [f 21; f 22; f 23; f 24];
     X4List := [f 25; f 26; f 27; f 28];
     X5 := f 29;
     X6List := [f 30; f 31; f 32; f 33];
     X7List := Some [f 34; f 35; f 36; f 37] |}.

(** Serializers for the concrete runs of the transfer and key-rotation
    proofs: the 32-byte fields one after the other in the order of the
    record, the auditors' commitments last; the deserializers cut the bytes
    in 32-byte strides. *)
Definition exampleSerializeTransfer (proof : SigmaProofVeiledTransferOutputs) : bytes :=
  concatBytes
    ([t_alpha1 proof; t_alpha2 proof; t_alpha3 proof; t_alpha4 proof; t_alpha5 proof;
      t_X1 proof; t_X2 proof; t_X3 proof; t_X4 proof; t_X5 proof]
       ++ match t_auditorsX proof with Some l => l | None => [] end).

Definition exampleDeserializeTransfer (proof : bytes)
  : Result SigmaProofVeiledTransferOutputs :=
  let proofArr := proofChunks proof (length proof) in
  Ok {| t_alpha1 := nth 0 proofArr [];
        t_alpha2 := nth 1 proofArr [];
        t_alpha3 := nth 2 proofArr [];
        t_alpha4 := nth 3 proofArr [];
        t_alpha5 := nth 4 proofArr [];
        t_X1 := nth 5 proofArr [];
        t_X2 := nth 6 proofArr [];
        t_X3 := nth 7 proofArr [];
        t_X4 := nth 8 proofArr [];
        t_X5 := nth 9 proofArr [];
        t_auditorsX := Some (skipn 10 proofArr) |}.

Definition exampleSerializeKeyRotation (proof : SigmaProofVeiledKeyRotationOutputs) : bytes :=
  concatBytes
    [k_alpha1 proof; k_alpha2 proof; k_alpha3 proof; k_alpha4 proof; k_alpha5 proof;
     k_X1 proof; k_X2 proof; k_X3 proof; k_X4 proof].

Definition exampleDeserializeKeyRotation (proof : bytes)
  : Result SigmaProofVeiledKeyRotationOutputs :=
  let proofArr := proofChunks proof (length proof) in
  Ok {| k_alpha1 := nth 0 proofArr [];
        k_alpha2 := nth 1 proofArr [];
        k_alpha3 := nth 2 proofArr [];
        k_alpha4 := nth 3 proofArr [];
        k_alpha5 := nth 4 proofArr [];
        k_X1 := nth 5 proofArr [];
        k_X2 := nth 6 proofArr [];
        k_X3 := nth 7 proofArr [];
        k_X4 := nth 8 proofArr [] |}.

(** A second key, whose scalar is 11. *)
Definition sk11 : TwistedEd25519PrivateKey := {| sk_bytes := numberToBytesLE 11 32 |}.

(** An initialised builder with the given key and encrypted balance, for a
    transfer of 10; and a private key whose 32 bytes, read as a number, lie
    above the group order. *)
Definition exampleBuilder (privateKey : TwistedEd25519PrivateKey)
  (balance : list (TwistedElGamalCiphertext (G := Zl_group)))
  : VeiledTransfer (G := Zl_group) :=
  {| isInitialized := true;
     twistedEd25519PrivateKey := privateKey;
     recipientPublicKey := recipientKey;
     recipientPublicKeyU8 := publicKeyToU8 recipientKey;
     auditorPublicKeys := None;
     auditorsU8PublicKeys := [];
     auditorsDList := [];
     encryptedActualBalance := balance;
     chunkedAmountToTransfer := [10; 0; 0; 0];
     chunkedBalanceAfterTransfer := [60; 0; 0; 0];
     amountToTransfer := 10;
     balanceAfterTransfer := Some 60;
     encryptedActualBalanceAfterTransfer := None;
     encryptedAmountByRecipient :=
       [encryptionOf 10 101 recipientPoint; encryptionOf 0 102 recipientPoint;
        encryptionOf 0 103 recipientPoint; encryptionOf 0 104 recipientPoint];
     randomness := Some [101; 102; 103; 104] |}.

Definition skHigh : TwistedEd25519PrivateKey := {| sk_bytes := numberToBytesLE (2 ^ 255) 32 |}.

(* ------------------------------------------------------------------ *)
(** ** The bounded loop *)



(* ------------------------------------------------------------------ *)
(** ** Twisted ElGamal *)

Section TwistedElGamalFacts.
Context {G : RistrettoGroup}.
Variable randomBytes : nat -> bytes.




End TwistedElGamalFacts.


Section TwistedElGamalClaims.
Context {G : RistrettoGroup}.
Variable randomBytes : nat -> bytes.

Lemma amountGuard_false (amount : Z) : amountGuard amount = false.
Proof.
  unfold amountGuard. pose proof CURVE_n_pos.
  destruct (amount <? 0) eqn:E; [|reflexivity].
  simpl. apply Z.ltb_lt in E. rewrite Z.geb_leb. apply Z.leb_gt. lia.
Qed.

(** The ciphertext that [encryptWithPK] builds under the key [P], with
    [r = mod(bytesToNumberLE(random), n)]: [(m.G + r.H, r.P)]. *)
Lemma encryptWithPK_Ok (m : Z) (P : RistPoint) (random : bytes) :
  length random = 32%nat ->
  encryptWithPK randomBytes m {| pk_bytes := toRawBytes P |} (Some random) =
  Ok {| ct_C := add (multiply BASE m)
                    (multiply H_RISTRETTO (modN (bytesToNumberLE random)));
        ct_D := multiply P (modN (bytesToNumberLE random)) |}.
Proof.
  intros Hlen. unfold encryptWithPK, ensureBytes, newCiphertext.
  rewrite amountGuard_false, Hlen. cbn [Nat.eqb bind pk_toUint8Array pk_bytes].
  repeat (rewrite pointFromHex_toRawBytes; cbn [bind]).
  destruct (m =? 0) eqn:E; [|reflexivity].
  apply Z.eqb_eq in E. subst m. now rewrite multiply_0.
Qed.





End TwistedElGamalClaims.

(* ------------------------------------------------------------------ *)
(** ** Fixed-width fields on the wire *)

Lemma concat_fields_length (fields : list bytes) :
  Forall (fun f => length f = PROOF_CHUNK_SIZE) fields ->
  length (concatBytes fields) = (PROOF_CHUNK_SIZE * length fields)%nat.
Proof.
  unfold concatBytes.
  induction 1 as [|f fs Hf Hfs IH]; [reflexivity|].
  cbn [concat length]. rewrite length_app, Hf, IH. lia.
Qed.

Lemma subarray_concat_fields (fields : list bytes) :
  Forall (fun f => length f = PROOF_CHUNK_SIZE) fields ->
  map (fun k => subarray (concatBytes fields)
                  (k * PROOF_CHUNK_SIZE) (k * PROOF_CHUNK_SIZE + PROOF_CHUNK_SIZE))
      (seq 0 (length fields)) = fields.
Proof.
  unfold concatBytes, subarray.
  induction 1 as [|f fs Hf Hfs IH]; [reflexivity|].
  cbn [length seq map concat]. f_equal.
  - cbn [Nat.mul Nat.add skipn]. rewrite Nat.sub_0_r.
    rewrite firstn_app, Hf, Nat.sub_diag, firstn_O, app_nil_r.
    rewrite <- Hf. apply firstn_all.
  - rewrite <- seq_shift, map_map. rewrite <- IH at 2.
    apply map_ext. intros k.
    replace (S k * PROOF_CHUNK_SIZE + PROOF_CHUNK_SIZE - S k * PROOF_CHUNK_SIZE)%nat
      with (k * PROOF_CHUNK_SIZE + PROOF_CHUNK_SIZE - k * PROOF_CHUNK_SIZE)%nat by lia.
    f_equal.
    rewrite skipn_app, Hf.
    replace (S k * PROOF_CHUNK_SIZE - PROOF_CHUNK_SIZE)%nat with (k * PROOF_CHUNK_SIZE)%nat by lia.
    rewrite skipn_all2 by (rewrite Hf; lia). reflexivity.
Qed.

Lemma proofChunks_concat_fields (fields : list bytes) :
  Forall (fun f => length f = PROOF_CHUNK_SIZE) fields ->
  proofChunks (concatBytes fields) (PROOF_CHUNK_SIZE * length fields) = fields.
Proof.
  intros Hf. unfold proofChunks.
  replace ((PROOF_CHUNK_SIZE * length fields + (PROOF_CHUNK_SIZE - 1)) / PROOF_CHUNK_SIZE)%nat
    with (length fields).
  - now apply subarray_concat_fields.
  - unfold PROOF_CHUNK_SIZE.
    apply Nat.div_unique with (r := 31%nat); lia.
Qed.


(* ------------------------------------------------------------------ *)
(** ** The withdraw sigma proof *)


Section WithdrawClaims.
Context {G : RistrettoGroup}.
Variable randomBytes : nat -> bytes.
Variable sha512 : bytes -> bytes.

Lemma publicKey_inv (sk : TwistedEd25519PrivateKey) (pk : TwistedEd25519PublicKey) :
  publicKey sk = Ok pk ->
  let s := bytesToNumberLE (sk_bytes sk) in
  invertN s = Ok (Z.invmod s CURVE_n) /\
  (Z.invmod s CURVE_n * s) mod CURVE_n = 1 /\
  pk = {| pk_bytes := toRawBytes (multiply H_RISTRETTO (Z.invmod s CURVE_n)) |}.
Proof.
  intros Hpk s. pose proof CURVE_n_pos as Hn.
  unfold publicKey, sk_toUint8Array in Hpk. fold s in Hpk.
  assert (Hg : Z.gcd s CURVE_n = 1).
  { unfold invertN in Hpk.
    destruct (Z.gcd (s mod CURVE_n) CURVE_n =? 1) eqn:E; [|discriminate].
    apply Z.eqb_eq in E. rewrite Z.gcd_mod in E by lia. now rewrite Z.gcd_comm. }
  destruct (invertN_Ok s Hg) as [Hi Hinv].
  rewrite Hi in Hpk. cbn [bind] in Hpk. injection Hpk as <-.
  repeat split; assumption.
Qed.

Lemma encryptWithPK_inv (m : Z) (P : RistPoint) (random : option bytes)
  (ct : TwistedElGamalCiphertext) :
  encryptWithPK randomBytes m {| pk_bytes := toRawBytes P |} random = Ok ct ->
  exists r, ct = {| ct_C := add (multiply BASE m) (multiply H_RISTRETTO r);
                    ct_D := multiply P r |}.
Proof.
  intros He.
  set (rBytes := match random with Some r => r | None => randomBytes 32 end).
  assert (Hlen : length rBytes = 32%nat).
  { unfold encryptWithPK, ensureBytes in He. fold rBytes in He.
    rewrite amountGuard_false in He.
    destruct (Nat.eqb (length rBytes) 32) eqn:E; [|discriminate].
    now apply Nat.eqb_eq. }
  exists (modN (bytesToNumberLE rBytes)).
  assert (He' : encryptWithPK randomBytes m {| pk_bytes := toRawBytes P |} random
                = encryptWithPK randomBytes m {| pk_bytes := toRawBytes P |} (Some rBytes))
    by (unfold rBytes; destruct random; reflexivity).
  rewrite He', (encryptWithPK_Ok randomBytes m P rBytes Hlen) in He. congruence.
Qed.



End WithdrawClaims.


(* ------------------------------------------------------------------ *)
(** ** The VeiledTransfer builder *)

Lemma amountToChunks_length (amount : Z) (chunksCount : nat) :
  length (amountToChunks amount chunksCount) = chunksCount.
Proof. unfold amountToChunks. now rewrite length_map, length_seq. Qed.

Section ConstructorFacts.
Context {G : RistrettoGroup}.
Variable randomBytes : nat -> bytes.
Variable amountToChunksUndefined : Result (list Z).

(** The map that builds [encryptedAmountByRecipient] while [this.randomness]
    is still [undefined] throws at its first chunk. *)
Lemma encryptedAmountByRecipient_undefined (recipientU8 : bytes) (chunks : list Z) :
  chunks <> [] ->
  mapiM (fun chunk i =>
           rs <- orThrow (@None (list Z)) UndefinedDereference ;;
           encryptWithPK randomBytes chunk {| pk_bytes := recipientU8 |} (randomArg rs i))
        0%nat chunks
  = Throw UndefinedDereference.
Proof.
  destruct chunks as [|c rest]; [contradiction|reflexivity].
Qed.

(** The map that builds [auditorsDList] while [this.randomness] is still
    [undefined]: it returns only for an empty list of auditors. *)
Lemma auditorsDList_undefined (auditorsU8 : list bytes) :
  mapM (fun pk =>
          pkRist <- pointFromHex pk ;;
          rs <- orThrow (@None (list Z)) UndefinedDereference ;;
          Ok (map (fun r => toRawBytes (multiply pkRist r)) rs))
       auditorsU8
  = match auditorsU8 with
    | [] => Ok []
    | pk :: _ =>
        match fromHex pk with
        | Some _ => Throw UndefinedDereference
        | None => Throw InvalidPointEncoding
        end
    end.
Proof.
  destruct auditorsU8 as [|pk rest]; [reflexivity|].
  cbn [mapM]. unfold pointFromHex. destruct (fromHex pk); reflexivity.
Qed.

Lemma constructor_throws sk balance amount recipient auditors randomness_ genList :
  exists e,
    constructor randomBytes amountToChunksUndefined sk balance amount recipient
                auditors randomness_ genList = Throw e /\
    (e = UndefinedDereference \/ e = InvalidPointEncoding \/
     amountToChunksUndefined = Throw e).
Proof.
  unfold constructor. rewrite auditorsDList_undefined.
  destruct (match auditors with Some pks => map publicKeyToU8 pks | None => [] end)
    as [|pk rest].
  - cbn [bind]. unfold amountToChunksOpt.
    destruct amountToChunksUndefined as [chunks|e] eqn:Eu.
    + cbn [bind]. rewrite encryptedAmountByRecipient_undefined.
      * exists UndefinedDereference. cbn [bind]. auto.
      * intros Hnil. apply (f_equal (@length Z)) in Hnil.
        rewrite amountToChunks_length in Hnil. discriminate.
    + exists e. cbn [bind]. auto.
  - destruct (fromHex pk); cbn [bind]; eexists; split; try reflexivity; auto.
Qed.

End ConstructorFacts.

Section BuilderFacts.
Context {G : RistrettoGroup}.
Variable randomBytes : nat -> bytes.
Variable sha512 : bytes -> bytes.
Variable generateRangeZKP : Z -> bytes -> bytes -> bytes -> bytes * bytes.

Lemma init_not_initialized (this : VeiledTransfer) :
  isInitialized this = false -> init randomBytes this = (Throw NotInitialized, this).
Proof. intros H. unfold init. now rewrite H. Qed.

Lemma genSigmaProof_not_initialized (this : VeiledTransfer) (nonces : TransferNonces) :
  isInitialized this = false ->
  genSigmaProof randomBytes sha512 this nonces = Throw NotInitialized.
Proof. intros H. unfold genSigmaProof, genSigmaProofGuards. now rewrite H. Qed.

Lemma genRangeProof_not_initialized (this : VeiledTransfer) :
  isInitialized this = false ->
  genRangeProof generateRangeZKP this = Throw NotInitialized.
Proof. intros H. unfold genRangeProof. now rewrite H. Qed.

Lemma step_not_initialized (this : VeiledTransfer) (c : Call) :
  isInitialized this = false ->
  step randomBytes sha512 generateRangeZKP this c = (Threw NotInitialized, this).
Proof.
  intros H. destruct c as [|nonces|]; cbn [step].
  - now rewrite init_not_initialized.
  - now rewrite genSigmaProof_not_initialized.
  - now rewrite genRangeProof_not_initialized.
Qed.

Lemma run_not_initialized (calls : list Call) :
  forall this,
    isInitialized this = false ->
    run randomBytes sha512 generateRangeZKP this calls =
    (map (fun _ => Threw NotInitialized) calls, this).
Proof.
  induction calls as [|c rest IH]; intros this H; [reflexivity|].
  cbn [run map]. rewrite (step_not_initialized this c H), (IH this H). reflexivity.
Qed.

Lemma constructor_isInitialized amountToChunksUndefined sk balance amount recipient
  auditors randomness_ genList (this : VeiledTransfer) :
  constructor randomBytes amountToChunksUndefined sk balance amount recipient
              auditors randomness_ genList = Ok this ->
  isInitialized this = false.
Proof.
  unfold constructor. intros H.
  apply bind_Ok_inv in H. destruct H as (dl & _ & H).
  apply bind_Ok_inv in H. destruct H as (chunks & _ & H).
  apply bind_Ok_inv in H. destruct H as (cts & _ & H).
  injection H as <-. reflexivity.
Qed.

End BuilderFacts.

(* ------------------------------------------------------------------ *)
(** ** The guards of [genSigmaProof] *)

Lemma neverThrows_Ok {A : Type} (e : Error) (a : A) : neverThrows e (Ok a).
Proof. discriminate. Qed.

Lemma neverThrows_Throw {A : Type} (e e' : Error) :
  e' <> e -> neverThrows e (@Throw A e').
Proof. intros Hne H. injection H as ->. now apply Hne. Qed.

Lemma neverThrows_bind {A B : Type} (e : Error) (c : Result A) (k : A -> Result B) :
  neverThrows e c -> (forall a, neverThrows e (k a)) -> neverThrows e (bind c k).
Proof.
  intros Hc Hk. destruct c as [a|e']; cbn [bind]; [apply Hk|].
  intros H. apply Hc. injection H as ->. reflexivity.
Qed.

Lemma neverThrows_mapM {A B : Type} (e : Error) (f : A -> Result B) (xs : list A) :
  (forall x, neverThrows e (f x)) -> neverThrows e (mapM f xs).
Proof.
  intros Hf. induction xs as [|x xs IH]; cbn [mapM]; [apply neverThrows_Ok|].
  apply neverThrows_bind; [apply Hf|]. intros y.
  apply neverThrows_bind; [exact IH|]. intros ys. apply neverThrows_Ok.
Qed.

Lemma neverThrows_mapiM {A B : Type} (e : Error) (f : A -> nat -> Result B) (xs : list A) :
  (forall x i, neverThrows e (f x i)) -> forall i, neverThrows e (mapiM f i xs).
Proof.
  intros Hf. induction xs as [|x xs IH]; intros i; cbn [mapiM]; [apply neverThrows_Ok|].
  apply neverThrows_bind; [apply Hf|]. intros y.
  apply neverThrows_bind; [apply IH|]. intros ys. apply neverThrows_Ok.
Qed.

Lemma neverThrows_orThrow {A : Type} (e e' : Error) (o : option A) :
  e' <> e -> neverThrows e (orThrow o e').
Proof.
  intros Hne. destruct o; [apply neverThrows_Ok|now apply neverThrows_Throw].
Qed.

Lemma neverThrows_invertN (a : Z) : neverThrows AmountTooLarge (invertN a).
Proof. unfold invertN. destruct (_ =? 1); discriminate. Qed.

Section GuardFacts.
Context {G : RistrettoGroup}.
Variable randomBytes : nat -> bytes.
Variable sha512 : bytes -> bytes.

Lemma neverThrows_pointFromHex (bs : bytes) :
  neverThrows AmountTooLarge (pointFromHex bs).
Proof. apply neverThrows_orThrow. discriminate. Qed.

Lemma neverThrows_at_index {A : Type} (xs : list A) (i : nat) :
  neverThrows AmountTooLarge (at_index xs i).
Proof. apply neverThrows_orThrow. discriminate. Qed.

Lemma neverThrows_publicKey (sk : TwistedEd25519PrivateKey) :
  neverThrows AmountTooLarge (publicKey sk).
Proof.
  unfold publicKey. apply neverThrows_bind; [apply neverThrows_invertN|].
  intros a. apply neverThrows_Ok.
Qed.

Lemma neverThrows_encryptWithPK amount pk random :
  neverThrows AmountTooLarge (encryptWithPK randomBytes amount pk random).
Proof.
  unfold encryptWithPK, ensureBytes, newCiphertext.
  destruct (amountGuard amount); [discriminate|].
  destruct (Nat.eqb _ 32); cbn [bind]; [|discriminate].
  repeat (apply neverThrows_bind; [apply neverThrows_pointFromHex|intros ?]).
  apply neverThrows_Ok.
Qed.

Lemma genSigmaProofGuards_spec (this : VeiledTransfer) :
  match genSigmaProofGuards this with
  | Throw NotInitialized => isInitialized this = false
  | Throw InvalidRandomnessLength =>
      isInitialized this = true /\ ~ randomnessLengthOk this
  | Throw AmountTooLarge =>
      isInitialized this = true /\ randomnessLengthOk this /\
      2 ^ 64 <= amountToTransfer this
  | Throw BalanceAfterTransferUndefined =>
      isInitialized this = true /\ randomnessLengthOk this /\
      amountToTransfer this < 2 ^ 64 /\
      (balanceAfterTransfer this = None \/ balanceAfterTransfer this = Some 0)
  | Throw _ => False
  | Ok b =>
      isInitialized this = true /\ randomnessLengthOk this /\
      amountToTransfer this < 2 ^ 64 /\
      balanceAfterTransfer this = Some b /\ b <> 0
  end.
Proof.
  unfold genSigmaProofGuards, randomnessLengthOk.
  destruct (isInitialized this); cbn [negb]; [|reflexivity].
  destruct (randomness this) as [rs|].
  - destruct (Nat.eqb (length rs) VEILED_BALANCE_CHUNK_SIZE) eqn:El; cbn [negb].
    + apply Nat.eqb_eq in El.
      change (2 ^ (2 * CHUNK_BITS_BI) - 1) with (2 ^ 64 - 1).
      destruct (amountToTransfer this >? 2 ^ 64 - 1) eqn:Ea.
      * repeat split; [exact El|]. apply Z.gtb_lt in Ea. lia.
      * assert (amountToTransfer this < 2 ^ 64).
        { destruct (Z.gtb_spec (amountToTransfer this) (2 ^ 64 - 1)); [discriminate|lia]. }
        destruct (balanceAfterTransfer this) as [b|]; [|repeat split; auto].
        destruct (b =? 0) eqn:Eb.
        -- apply Z.eqb_eq in Eb. subst b. repeat split; auto.
        -- apply Z.eqb_neq in Eb. repeat split; auto.
    + apply Nat.eqb_neq in El. split; [reflexivity|exact El].
  - change (2 ^ (2 * CHUNK_BITS_BI) - 1) with (2 ^ 64 - 1).
    destruct (amountToTransfer this >? 2 ^ 64 - 1) eqn:Ea.
    + repeat split. apply Z.gtb_lt in Ea. lia.
    + assert (amountToTransfer this < 2 ^ 64).
      { destruct (Z.gtb_spec (amountToTransfer this) (2 ^ 64 - 1)); [discriminate|lia]. }
      destruct (balanceAfterTransfer this) as [b|]; [|repeat split; auto].
      destruct (b =? 0) eqn:Eb.
      * apply Z.eqb_eq in Eb. subst b. repeat split; auto.
      * apply Z.eqb_neq in Eb. repeat split; auto.
Qed.

(** Past its guards, [genSigmaProof] throws no amount error. *)
Lemma genSigmaProof_AmountTooLarge_guards (this : VeiledTransfer) (nonces : TransferNonces) :
  genSigmaProof randomBytes sha512 this nonces = Throw AmountTooLarge ->
  genSigmaProofGuards this = Throw AmountTooLarge.
Proof.
  unfold genSigmaProof.
  destruct (genSigmaProofGuards this) as [b|e]; cbn [bind];
    [|intros H; injection H as ->; reflexivity].
  intros H. exfalso. revert H. cbv zeta.
  repeat first
    [ apply neverThrows_Ok
    | apply neverThrows_pointFromHex
    | apply neverThrows_publicKey
    | apply neverThrows_invertN
    | apply neverThrows_at_index
    | apply neverThrows_encryptWithPK
    | apply neverThrows_orThrow; discriminate
    | apply neverThrows_mapM; intros ?
    | apply neverThrows_mapiM; intros ? ?
    | apply neverThrows_bind; [|intros ?] ].
Qed.

End GuardFacts.

(* ------------------------------------------------------------------ *)
(** ** The wire format of the transfer sigma proof *)

Lemma chunkFields_inv (fs : list bytes) :
  chunkFields fs ->
  exists a b c d, fs = [a; b; c; d] /\ field32 a /\ field32 b /\ field32 c /\ field32 d.
Proof.
  intros [Hlen Hall].
  destruct fs as [|a [|b [|c [|d [|x rest]]]]]; try discriminate Hlen.
  exists a, b, c, d. split; [reflexivity|].
  inversion Hall as [|? ? Ha Hall1]; subst.
  inversion Hall1 as [|? ? Hb Hall2]; subst.
  inversion Hall2 as [|? ? Hc Hall3]; subst.
  inversion Hall3 as [|? ? Hd _]; subst. auto.
Qed.

Lemma serializeSigmaProof_fields (proof : VeiledTransferSigmaProof) (x7 : list bytes) :
  X7List proof = Some x7 ->
  serializeSigmaProof proof = concatBytes (baseFields proof ++ x7).
Proof.
  intros H7. unfold serializeSigmaProof, baseFields. rewrite H7.
  rewrite <- !app_assoc. reflexivity.
Qed.

Lemma deserialize_fields (base x7 : list bytes) :
  length base = 33%nat -> Forall field32 base -> Forall field32 x7 ->
  deserializeSigmaProof (concatBytes (base ++ x7)) =
  Ok {| alpha1 := nth 0 base [];
        alpha2 := nth 1 base [];
        alpha3List := slice base 2 (2 + VEILED_BALANCE_CHUNK_SIZE);
        alpha4List := slice base 6 (6 + VEILED_BALANCE_CHUNK_SIZE);
        alpha5 := nth 10 base [];
        alpha6List := slice base 11 (11 + VEILED_BALANCE_CHUNK_SIZE);
        X1 := nth 15 base [];
        X2List := slice base 16 (16 + VEILED_BALANCE_CHUNK_SIZE);
        X3List := slice base 20 (20 + VEILED_BALANCE_CHUNK_SIZE);
        X4List := slice base 24 (24 + VEILED_BALANCE_CHUNK_SIZE);
        X5 := nth 28 base [];
        X6List := skipn 29 base;
        X7List := Some x7 |}.
Proof.
  intros Hlen Hbase Hx7.
  assert (Hall : Forall field32 (base ++ x7)) by (apply Forall_app; split; assumption).
  pose proof (concat_fields_length (base ++ x7) Hall) as Htotal.
  pose proof (concat_fields_length base Hbase) as Hb.
  pose proof (concat_fields_length x7 Hx7) as H7.
  rewrite length_app, Hlen in Htotal. rewrite Hlen in Hb.
  assert (Hsplit : concatBytes (base ++ x7) = concatBytes base ++ concatBytes x7)
    by (unfold concatBytes; apply concat_app).
  assert (Hsize : SIGMA_PROOF_TRANSFER_SIZE = (PROOF_CHUNK_SIZE * 33)%nat) by reflexivity.
  unfold deserializeSigmaProof.
  replace (length (concatBytes (base ++ x7)) mod PROOF_CHUNK_SIZE)%nat with 0%nat
    by (rewrite Htotal, Nat.mul_comm; symmetry; apply Nat.Div0.mod_mul).
  cbn [Nat.eqb negb].
  replace (Nat.ltb (length (concatBytes (base ++ x7))) SIGMA_PROOF_TRANSFER_SIZE) with false
    by (symmetry; apply Nat.ltb_ge; rewrite Htotal, Hsize; lia).
  assert (Hbasepart : subarray (concatBytes (base ++ x7)) 0 SIGMA_PROOF_TRANSFER_SIZE
                      = concatBytes base).
  { unfold subarray. rewrite Nat.sub_0_r, skipn_O, Hsplit, Hsize, <- Hb.
    rewrite firstn_app, Nat.sub_diag, firstn_O, app_nil_r. apply firstn_all. }
  rewrite Hbasepart.
  assert (Hchunks : proofChunks (concatBytes base) SIGMA_PROOF_TRANSFER_SIZE = base).
  { rewrite Hsize, <- Hlen. now apply proofChunks_concat_fields. }
  rewrite Hchunks.
  assert (Htail :
    (if Nat.ltb SIGMA_PROOF_TRANSFER_SIZE (length (concatBytes (base ++ x7)))
     then proofChunks (skipn SIGMA_PROOF_TRANSFER_SIZE (concatBytes (base ++ x7)))
            (length (concatBytes (base ++ x7)) - SIGMA_PROOF_TRANSFER_SIZE)
     else []) = x7).
  { destruct x7 as [|x rest].
    - rewrite Htotal, Hsize. cbn [length].
      replace (PROOF_CHUNK_SIZE * (33 + 0))%nat with (PROOF_CHUNK_SIZE * 33)%nat by lia.
      now rewrite Nat.ltb_irrefl.
    - replace (Nat.ltb SIGMA_PROOF_TRANSFER_SIZE (length (concatBytes (base ++ x :: rest))))
        with true
        by (symmetry; apply Nat.ltb_lt; rewrite Htotal, Hsize;
            cbn [length]; unfold PROOF_CHUNK_SIZE; lia).
      rewrite Hsplit, Hsize, <- Hb at 1.
      rewrite skipn_app, Nat.sub_diag, skipn_O, skipn_all, app_nil_l.
      rewrite Htotal, Hsize.
      replace (PROOF_CHUNK_SIZE * (33 + length (x :: rest)) - PROOF_CHUNK_SIZE * 33)%nat
        with (PROOF_CHUNK_SIZE * length (x :: rest))%nat by lia.
      now apply proofChunks_concat_fields. }
  rewrite Htail. reflexivity.
Qed.

(* ------------------------------------------------------------------ *)
(** ** What [genSigmaProof] depends on *)


(* ================================================================== *)
(** * The claims *)








(** The same run evaluated, and a run with a wrong [changedBalance], which
    the verifier rejects. *)
Example withdraw_run_accepts :
  (pk <- publicKey (G := Zl_group) sk7 ;;
   encryptedBalance <- encryptWithPK (G := Zl_group) zeroBytes 70 pk (Some random12345) ;;
   proof <- genSigmaProofVeiledWithdraw toyHash
              {| wo_privateKey := sk7; wo_encryptedBalance := encryptedBalance;
                 wo_amount := 15; wo_changedBalance := 70 - 15 |} 11 22 33 ;;
   verifySigmaProofVeiledWithdraw toyHash
     {| vo_publicKey := pk; vo_encryptedBalance := encryptedBalance;
        vo_amount := 15; vo_proof := proof |}) = Ok true.
Proof. vm_compute. reflexivity. Qed.

Example withdraw_run_rejects_wrong_balance :
  (pk <- publicKey (G := Zl_group) sk7 ;;
   encryptedBalance <- encryptWithPK (G := Zl_group) zeroBytes 70 pk (Some random12345) ;;
   proof <- genSigmaProofVeiledWithdraw toyHash
              {| wo_privateKey := sk7; wo_encryptedBalance := encryptedBalance;
                 wo_amount := 15; wo_changedBalance := 56 |} 11 22 33 ;;
   verifySigmaProofVeiledWithdraw toyHash
     {| vo_publicKey := pk; vo_encryptedBalance := encryptedBalance;
        vo_amount := 15; vo_proof := proof |}) = Ok false.
Proof. vm_compute. reflexivity. Qed.




(** C5 at the failing inputs: the amounts [-1] and [n] are encrypted. *)
Lemma encryptWithPK_accepts_out_of_range {G : RistrettoGroup} (randomBytes : nat -> bytes)
  (P : RistPoint) (random : bytes) :
  length random = 32%nat ->
  (exists ct, encryptWithPK randomBytes (-1) {| pk_bytes := toRawBytes P |} (Some random) = Ok ct) /\
  (exists ct, encryptWithPK randomBytes CURVE_n {| pk_bytes := toRawBytes P |} (Some random) = Ok ct).
Proof.
  intros Hlen. split; eexists; apply (encryptWithPK_Ok randomBytes _ P random Hlen).
Qed.

Lemma encryptWithPK_accepts_minus_one :
  outcomeOf (pk <- publicKey (G := Zl_group) sk7 ;;
             encryptWithPK (G := Zl_group) zeroBytes (-1) pk (Some random12345))
  = Returned /\
  outcomeOf (pk <- publicKey (G := Zl_group) sk7 ;;
             encryptWithPK (G := Zl_group) zeroBytes CURVE_n pk (Some random12345))
  = Returned.
Proof. split; vm_compute; reflexivity. Qed.

(** C6. In the constructor of the VeiledTransfer builder, [this.randomness]
    is read, to build [auditorsDList] and [encryptedAmountByRecipient],
    before it is assigned.  Consequently:
    - every invocation with a non-empty list of auditor keys fails, and when
      the first auditor key is the encoding of a point it fails by
      dereferencing the not-yet-assigned randomness;
    - every invocation fails before the randomness is stored (with an empty
      list of auditors the dereference happens in the map that builds
      [encryptedAmountByRecipient], unless [amountToChunks(undefined, 4)]
      has thrown already), so no [encryptedAmountByRecipient] is ever built
      from the randomness the builder would store: the outcome is the same
      whatever [randomness] is passed and whatever
      [ed25519GenListOfRandom()] would draw. *)
Theorem constructor_reads_randomness_before_assignment {G : RistrettoGroup}
  (randomBytes : nat -> bytes) (amountToChunksUndefined : Result (list Z))
  (sk : TwistedEd25519PrivateKey) (balance : list TwistedElGamalCiphertext)
  (amount : Z) (recipient : TwistedEd25519PublicKey)
  (auditors : option (list TwistedEd25519PublicKey)) :
  (forall randomness_ genList,
     exists e,
       constructor randomBytes amountToChunksUndefined sk balance amount recipient
                   auditors randomness_ genList = Throw e) /\
  (forall randomness1 genList1 randomness2 genList2,
     constructor randomBytes amountToChunksUndefined sk balance amount recipient
                 auditors randomness1 genList1 =
     constructor randomBytes amountToChunksUndefined sk balance amount recipient
                 auditors randomness2 genList2) /\
  (forall pk pks randomness_ genList,
     auditors = Some (pk :: pks) ->
     fromHex (publicKeyToU8 pk) <> None ->
     constructor randomBytes amountToChunksUndefined sk balance amount recipient
                 auditors randomness_ genList = Throw UndefinedDereference).
Proof.
  split; [|split].
  - intros randomness_ genList.
    destruct (constructor_throws randomBytes amountToChunksUndefined sk balance amount
                recipient auditors randomness_ genList) as (e & He & _).
    now exists e.
  - intros randomness1 genList1 randomness2 genList2.
    unfold constructor. rewrite auditorsDList_undefined.
    destruct (match auditors with Some pks => map publicKeyToU8 pks | None => [] end)
      as [|pk rest].
    + cbn [bind]. unfold amountToChunksOpt.
      destruct amountToChunksUndefined as [chunks|e]; [|reflexivity].
      cbn [bind]. rewrite encryptedAmountByRecipient_undefined; [reflexivity|].
      intros Hnil. apply (f_equal (@length Z)) in Hnil.
      rewrite amountToChunks_length in Hnil. discriminate.
    + destruct (fromHex pk); reflexivity.
  - intros pk pks randomness_ genList -> Hpk.
    unfold constructor. rewrite auditorsDList_undefined. cbn [map].
    destruct (fromHex (publicKeyToU8 pk)); [reflexivity|contradiction].
Qed.

Lemma constructor_reads_randomness_before_assignment_witness :
  Some [auditorKey] = Some [auditorKey] /\
  fromHex (RistrettoGroup := Zl_group) (publicKeyToU8 auditorKey) <> None /\
  outcomeOf (constructor (G := Zl_group) zeroBytes (Throw UndefinedDereference)
               sk7 [] 10 recipientKey (Some [auditorKey]) (Some [1; 2; 3; 4]) [])
  = Threw UndefinedDereference.
Proof.
  assert (Hk : fromHex (RistrettoGroup := Zl_group) (publicKeyToU8 auditorKey) <> None)
    by (vm_compute; discriminate).
  split; [reflexivity|]. split; [exact Hk|].
  rewrite (proj2 (proj2 (constructor_reads_randomness_before_assignment
                           (G := Zl_group) zeroBytes (Throw UndefinedDereference)
                           sk7 [] 10 recipientKey (Some [auditorKey])))
             auditorKey [] (Some [1; 2; 3; 4]) [] eq_refl Hk).
  reflexivity.
Defined.

(** The constructor run without auditors: it fails all the same. *)
Example constructor_without_auditors_throws :
  outcomeOf (constructor (G := Zl_group) zeroBytes (Ok [0; 0; 0; 0])
               sk7 [] 10 recipientKey None (Some [1; 2; 3; 4]) [])
  = Threw UndefinedDereference.
Proof. vm_compute. reflexivity. Qed.

(** C7. The field initialiser sets [isInitialized] to false and the
    constructor does not touch it, so every object the constructor returns
    has the flag false.  On an object whose flag is false, [init()] throws
    the not-initialized TypeError at its guard and leaves the object as it
    was; so do [genSigmaProof()] and [genRangeProof()]; and whatever
    sequence of these three calls is made, each of them throws the
    not-initialized error and the object, its flag included, stays as it
    was: [init] never makes [isInitialized] true. *)
Theorem isInitialized_never_set {G : RistrettoGroup}
  (randomBytes : nat -> bytes) (sha512 : bytes -> bytes)
  (generateRangeZKP : Z -> bytes -> bytes -> bytes -> bytes * bytes)
  (this : VeiledTransfer) :
  isInitialized this = false ->
  init randomBytes this = (Throw NotInitialized, this) /\
  (forall nonces, genSigmaProof randomBytes sha512 this nonces = Throw NotInitialized) /\
  genRangeProof generateRangeZKP this = Throw NotInitialized /\
  (forall calls,
     run randomBytes sha512 generateRangeZKP this calls =
     (map (fun _ => Threw NotInitialized) calls, this)) /\
  (forall amountToChunksUndefined sk balance amount recipient auditors randomness_ genList
          (built : VeiledTransfer),
     constructor randomBytes amountToChunksUndefined sk balance amount recipient
                 auditors randomness_ genList = Ok built ->
     isInitialized built = false).
Proof.
  intros H. repeat split.
  - now apply init_not_initialized.
  - intros nonces. now apply genSigmaProof_not_initialized.
  - now apply genRangeProof_not_initialized.
  - intros calls. now apply run_not_initialized.
  - intros. eapply constructor_isInitialized; eassumption.
Qed.

Lemma isInitialized_never_set_witness :
  isInitialized (exampleState false) = false /\
  init zeroBytes (exampleState false) = (Throw NotInitialized, exampleState false) /\
  (forall nonces,
     genSigmaProof zeroBytes toyHash (exampleState false) nonces = Throw NotInitialized) /\
  genRangeProof toyRangeZKP (exampleState false) = Throw NotInitialized /\
  (forall calls,
     run zeroBytes toyHash toyRangeZKP (exampleState false) calls =
     (map (fun _ => Threw NotInitialized) calls, exampleState false)).
Proof.
  split; [reflexivity|].
  destruct (isInitialized_never_set (G := Zl_group) zeroBytes toyHash toyRangeZKP
              (exampleState false) eq_refl) as (H1 & H2 & H3 & H4 & _).
  repeat split; assumption.
Defined.

(** The three calls evaluated on the example object. *)
Example uninitialized_calls_throw :
  fst (run zeroBytes toyHash toyRangeZKP (exampleState false)
         [CallInit; CallGenSigmaProof nonces1; CallGenRangeProof; CallInit])
  = [Threw NotInitialized; Threw NotInitialized; Threw NotInitialized; Threw NotInitialized].
Proof. vm_compute. reflexivity. Qed.

(** C8. [genSigmaProof] throws its amount error ("Amount must be less than
    2n**64") exactly when the call gets to the amount guard, that is when
    the builder is initialised and its randomness list has the right
    length, and the transfer amount is greater than or equal to [2^64].
    For an amount of [2^64] or more the call never returns a proof: it
    throws at one of its first three guards.  For an amount below [2^64]
    the amount error is not raised, neither by the guard nor by anything
    after it. *)
Theorem genSigmaProof_amount_bound {G : RistrettoGroup}
  (randomBytes : nat -> bytes) (sha512 : bytes -> bytes)
  (this : VeiledTransfer) (nonces : TransferNonces) :
  (genSigmaProof randomBytes sha512 this nonces = Throw AmountTooLarge <->
   isInitialized this = true /\ randomnessLengthOk this /\
   2 ^ 64 <= amountToTransfer this) /\
  (2 ^ 64 <= amountToTransfer this ->
   exists e, genSigmaProof randomBytes sha512 this nonces = Throw e /\
             (e = NotInitialized \/ e = InvalidRandomnessLength \/ e = AmountTooLarge)) /\
  (amountToTransfer this < 2 ^ 64 ->
   genSigmaProof randomBytes sha512 this nonces <> Throw AmountTooLarge).
Proof.
  pose proof (genSigmaProofGuards_spec this) as Hg.
  pose proof (genSigmaProof_AmountTooLarge_guards randomBytes sha512 this nonces) as Hb.
  assert (Hiff : genSigmaProof randomBytes sha512 this nonces = Throw AmountTooLarge <->
                 isInitialized this = true /\ randomnessLengthOk this /\
                 2 ^ 64 <= amountToTransfer this).
  { split.
    - intros H. specialize (Hb H). rewrite Hb in Hg. exact Hg.
    - intros (Hi & Hl & Ha). unfold genSigmaProof.
      destruct (genSigmaProofGuards this) as [b|[]]; cbn [bind];
        try reflexivity; try contradiction;
        try (rewrite Hg in Hi; discriminate);
        try (destruct Hg as (_ & Hg); contradiction);
        destruct Hg as (_ & _ & Hlt & _); lia. }
  split; [exact Hiff|]. split.
  - intros Ha. unfold genSigmaProof.
    destruct (genSigmaProofGuards this) as [b|[]]; cbn [bind];
      try contradiction;
      try (eexists; split; [reflexivity|auto]; fail);
      destruct Hg as (_ & _ & Hlt & _); lia.
  - intros Ha H. apply Hiff in H. lia.
Qed.

Lemma genSigmaProof_amount_bound_witness :
  isInitialized (exampleStateFor true (2 ^ 64)) = true /\
  randomnessLengthOk (exampleStateFor true (2 ^ 64)) /\
  2 ^ 64 <= amountToTransfer (exampleStateFor true (2 ^ 64)) /\
  genSigmaProof zeroBytes toyHash (exampleStateFor true (2 ^ 64)) nonces1
  = Throw AmountTooLarge.
Proof.
  assert (H : isInitialized (exampleStateFor true (2 ^ 64)) = true /\
              randomnessLengthOk (exampleStateFor true (2 ^ 64)) /\
              2 ^ 64 <= amountToTransfer (exampleStateFor true (2 ^ 64))).
  { split; [reflexivity|]. split; [reflexivity|]. simpl. lia. }
  destruct H as (H1 & H2 & H3).
  split; [exact H1|]. split; [exact H2|]. split; [exact H3|].
  apply (proj1 (genSigmaProof_amount_bound (G := Zl_group) zeroBytes toyHash
                  (exampleStateFor true (2 ^ 64)) nonces1)).
  split; [exact H1|]. split; [exact H2|exact H3].
Defined.

(** The guard at its boundary: [2^64 - 1] passes, [2^64] is refused. *)
Example genSigmaProof_amount_boundary :
  outcomeOf (genSigmaProof zeroBytes toyHash (exampleStateFor true (2 ^ 64 - 1)) nonces1)
  = Returned /\
  outcomeOf (genSigmaProof zeroBytes toyHash (exampleStateFor true (2 ^ 64)) nonces1)
  = Threw AmountTooLarge /\
  outcomeOf (genSigmaProof zeroBytes toyHash (exampleStateFor false (2 ^ 64)) nonces1)
  = Threw NotInitialized.
Proof. repeat split; vm_compute; reflexivity. Qed.

(** C9. Round trip of the transfer sigma proof on the wire.  For every
    proof whose scalar and point fields are 32-byte arrays, whose per-chunk
    lists have 4 such elements each and whose auditor list [X7List] holds
    32-byte elements (any number of them, [4.k] in particular),
    [deserializeSigmaProof(serializeSigmaProof(proof))] returns exactly the
    same fields; the bytes are the concatenation
    [a1 a2 a3[0..3] a4[0..3] a5 a6[0..3] X1 X2[0..3] X3[0..3] X4[0..3] X5 X6[0..3]]
    followed by the [X7] entries, and cutting them in 32-byte strides gives
    back these 33 fields followed by the [X7] entries. *)
Theorem serializeSigmaProof_roundtrip (proof : VeiledTransferSigmaProof) :
  wellFormedTransferProof proof ->
  deserializeSigmaProof (serializeSigmaProof proof) = Ok proof /\
  serializeSigmaProof proof =
    alpha1 proof ++ alpha2 proof
      ++ concat (alpha3List proof) ++ concat (alpha4List proof)
      ++ alpha5 proof ++ concat (alpha6List proof)
      ++ X1 proof ++ concat (X2List proof) ++ concat (X3List proof)
      ++ concat (X4List proof)
      ++ X5 proof ++ concat (X6List proof)
      ++ concat (match X7List proof with Some l => l | None => [] end) /\
  proofChunks (serializeSigmaProof proof) (length (serializeSigmaProof proof)) =
    baseFields proof ++ match X7List proof with Some l => l | None => [] end.
Proof.
  intros (H1 & H2 & H3 & H4 & H5 & H6 & H7 & H8 & H9 & H10 & H11 & H12 & x7 & Hx7 & Hall7).
  destruct (chunkFields_inv _ H3) as (a30 & a31 & a32 & a33 & E3 & ? & ? & ? & ?).
  destruct (chunkFields_inv _ H4) as (a40 & a41 & a42 & a43 & E4 & ? & ? & ? & ?).
  destruct (chunkFields_inv _ H6) as (a60 & a61 & a62 & a63 & E6 & ? & ? & ? & ?).
  destruct (chunkFields_inv _ H8) as (b20 & b21 & b22 & b23 & E8 & ? & ? & ? & ?).
  destruct (chunkFields_inv _ H9) as (b30 & b31 & b32 & b33 & E9 & ? & ? & ? & ?).
  destruct (chunkFields_inv _ H10) as (b40 & b41 & b42 & b43 & E10 & ? & ? & ? & ?).
  destruct (chunkFields_inv _ H12) as (b60 & b61 & b62 & b63 & E12 & ? & ? & ? & ?).
  destruct proof as [a1 a2 a3 a4 a5 a6 b1 b2 b3 b4 b5 b6 b7].
  cbn [alpha1 alpha2 alpha3List alpha4List alpha5 alpha6List
       X1 X2List X3List X4List X5 X6List X7List] in *.
  subst a3 a4 a6 b2 b3 b4 b6 b7.
  set (proof := {| alpha1 := a1; alpha2 := a2;
                   alpha3List := [a30; a31; a32; a33];
                   alpha4List := [a40; a41; a42; a43];
                   alpha5 := a5;
                   alpha6List := [a60; a61; a62; a63];
                   X1 := b1;
                   X2List := [b20; b21; b22; b23];
                   X3List := [b30; b31; b32; b33];
                   X4List := [b40; b41; b42; b43];
                   X5 := b5;
                   X6List := [b60; b61; b62; b63];
                   X7List := Some x7 |}).
  assert (Hbase : Forall field32 (baseFields proof))
    by (unfold baseFields, proof; cbn [alpha1 alpha2 alpha3List alpha4List alpha5
          alpha6List X1 X2List X3List X4List X5 X6List app]; repeat constructor; assumption).
  assert (Hlen : length (baseFields proof) = 33%nat) by reflexivity.
  pose proof (serializeSigmaProof_fields proof x7 eq_refl) as Hser.
  split; [|split].
  - rewrite Hser. rewrite (deserialize_fields _ x7 Hlen Hbase Hall7). reflexivity.
  - unfold serializeSigmaProof, concatBytes, proof.
    cbn [alpha1 alpha2 alpha3List alpha4List alpha5 alpha6List
         X1 X2List X3List X4List X5 X6List X7List app concat].
    rewrite !app_nil_r, <- !app_assoc. reflexivity.
  - assert (Hall : Forall field32 (baseFields proof ++ x7))
      by (apply Forall_app; split; assumption).
    rewrite Hser, (concat_fields_length _ Hall).
    now apply proofChunks_concat_fields.
Qed.

Lemma exampleProof_wellFormed : wellFormedTransferProof exampleProof.
Proof.
  unfold wellFormedTransferProof, chunkFields, field32.
  repeat split; try reflexivity; try (repeat constructor; reflexivity).
  exists [numberToBytesLE 34 32; numberToBytesLE 35 32;
          numberToBytesLE 36 32; numberToBytesLE 37 32].
  split; [reflexivity|]. repeat constructor; reflexivity.
Defined.

Lemma serializeSigmaProof_roundtrip_witness :
  wellFormedTransferProof exampleProof /\
  deserializeSigmaProof (serializeSigmaProof exampleProof) = Ok exampleProof.
Proof.
  split; [exact exampleProof_wellFormed|].
  exact (proj1 (serializeSigmaProof_roundtrip exampleProof exampleProof_wellFormed)).
Defined.

(** The round trip evaluated, and the two length checks of the
    deserialiser. *)
Example deserializeSigmaProof_runs :
  deserializeSigmaProof (serializeSigmaProof exampleProof) = Ok exampleProof /\
  outcomeOf (deserializeSigmaProof (zeroBytes 1055)) = Threw SigmaProofLengthNotMultiple /\
  outcomeOf (deserializeSigmaProof (zeroBytes 1024)) = Threw SigmaProofTooShort.
Proof. repeat split; vm_compute; reflexivity. Qed.




(* ================================================================== *)
(** * Further properties of the code *)

(** ** Twisted ElGamal: outcomes of [encryptWithPK], ranges of
       [decryptWithPK], operations on ciphertexts *)

Section CiphertextFacts.
Context {G : RistrettoGroup}.
Variable randomBytes : nat -> bytes.

Lemma newCiphertext_toRawBytes (C D : RistPoint) :
  newCiphertext (toRawBytes C) (toRawBytes D) = Ok {| ct_C := C; ct_D := D |}.
Proof.
  unfold newCiphertext.
  rewrite pointFromHex_toRawBytes. cbn [bind].
  rewrite pointFromHex_toRawBytes. reflexivity.
Qed.

Lemma subtract_add_same (P Q : RistPoint) : subtract (add P Q) Q = P.
Proof. apply (add_cancel_r _ _ Q). now rewrite subtract_add. Qed.








End CiphertextFacts.






(** X4. [modifyCiphertextByAmount] undoes itself: for an amount in
    (0, n), adding it to a ciphertext and then subtracting it, or
    subtracting and then adding, gives back the ciphertext, both points
    unchanged. *)
Theorem modifyCiphertextByAmount_undone {G : RistrettoGroup}
  (ciphertext : TwistedElGamalCiphertext) (operation : ModifyCiphertextOperation)
  (amount : Z) :
  0 < amount < CURVE_n ->
  (modified <- modifyCiphertextByAmount ciphertext operation amount ;;
   modifyCiphertextByAmount modified (opposite operation) amount) = Ok ciphertext.
Proof.
  intros _. destruct ciphertext as [C D].
  destruct operation; cbn [modifyCiphertextByAmount opposite];
    unfold addAmount, subtractAmount; cbn [ct_C ct_D];
    rewrite newCiphertext_toRawBytes; cbn [bind ct_C ct_D];
    rewrite newCiphertext_toRawBytes; do 2 f_equal.
  - apply subtract_add_same.
  - apply subtract_add.
Qed.

Lemma modifyCiphertextByAmount_undone_witness :
  0 < 5 < CURVE_n /\
  (modified <- modifyCiphertextByAmount ciphertextOf3 OpSubtract 5 ;;
   modifyCiphertextByAmount modified (opposite OpSubtract) 5) = Ok ciphertextOf3.
Proof.
  assert (H5 : 0 < 5 < CURVE_n) by (unfold CURVE_n; lia).
  split; [exact H5|].
  exact (modifyCiphertextByAmount_undone (G := Zl_group) ciphertextOf3 OpSubtract 5 H5).
Defined.

(** X5. [modifyCiphertextByCiphertext] undoes itself: adding a ciphertext
    and then subtracting the same ciphertext, or subtracting and then
    adding, gives back the first operand, both points unchanged; no
    exception is thrown on the way. *)
Theorem modifyCiphertextByCiphertext_undone {G : RistrettoGroup}
  (operand1 operand2 : TwistedElGamalCiphertext) (operation : ModifyCiphertextOperation) :
  (modified <- modifyCiphertextByCiphertext operand1 operation operand2 ;;
   modifyCiphertextByCiphertext modified (opposite operation) operand2) = Ok operand1.
Proof.
  destruct operand1 as [C1 D1]. destruct operand2 as [C2 D2].
  destruct operation; cbn [modifyCiphertextByCiphertext opposite];
    unfold addCiphertext, subtractCiphertext; cbn [ct_C ct_D];
    rewrite newCiphertext_toRawBytes; cbn [bind ct_C ct_D];
    rewrite newCiphertext_toRawBytes; f_equal; f_equal.
  - apply subtract_add_same.
  - apply subtract_add_same.
  - apply subtract_add.
  - apply subtract_add.
Qed.







(* ------------------------------------------------------------------ *)
(** ** The sigma proofs of [sigmaProofs.ts] *)


Section SigmaProofFacts.
Context {G : RistrettoGroup}.







End SigmaProofFacts.



Section TransferProofFacts.
Context {G : RistrettoGroup}.




End TransferProofFacts.








(** The key rotation run in [Zl_group], and the same run checked against a
    new ciphertext of another balance, which the verifier rejects. *)
Example keyRotation_run :
  (pkOld <- publicKey (G := Zl_group) sk7 ;;
   pkNew <- publicKey (G := Zl_group) sk11 ;;
   oldBalance <- encryptWithPK (G := Zl_group) zeroBytes 70 pkOld (Some random12345) ;;
   newBalance <- encryptWithPK (G := Zl_group) zeroBytes 70 pkNew (Some random777) ;;
   proof <- genSigmaProofVeiledKeyRotation zeroBytes toyHash exampleSerializeKeyRotation
              {| ko_oldPrivateKey := sk7; ko_newPrivateKey := sk11; ko_balance := 70;
                 ko_encryptedBalance := oldBalance; ko_random := Some random777 |}
              11 22 33 44 55 ;;
   verifySigmaProofVeiledKeyRotation toyHash exampleDeserializeKeyRotation
     {| vk_oldPublicKey := pkOld; vk_newPublicKey := pkNew;
        vk_oldEncryptedBalance := oldBalance; vk_newEncryptedBalance := newBalance;
        vk_proof := proof |}) = Ok true /\
  (pkOld <- publicKey (G := Zl_group) sk7 ;;
   pkNew <- publicKey (G := Zl_group) sk11 ;;
   oldBalance <- encryptWithPK (G := Zl_group) zeroBytes 70 pkOld (Some random12345) ;;
   otherBalance <- encryptWithPK (G := Zl_group) zeroBytes 71 pkNew (Some random777) ;;
   proof <- genSigmaProofVeiledKeyRotation zeroBytes toyHash exampleSerializeKeyRotation
              {| ko_oldPrivateKey := sk7; ko_newPrivateKey := sk11; ko_balance := 70;
                 ko_encryptedBalance := oldBalance; ko_random := Some random777 |}
              11 22 33 44 55 ;;
   verifySigmaProofVeiledKeyRotation toyHash exampleDeserializeKeyRotation
     {| vk_oldPublicKey := pkOld; vk_newPublicKey := pkNew;
        vk_oldEncryptedBalance := oldBalance; vk_newEncryptedBalance := otherBalance;
        vk_proof := proof |}) = Ok false.
Proof. split; vm_compute; reflexivity. Qed.

(** X11. [verifySigmaProofVeiledTransfer] throws "The number of auditors
    does not match the proof handed over." exactly when the proof
    deserializes and the number of auditor commitments it carries differs
    from the number of decryption handles or from the number of auditor
    keys passed in [opts.auditors] (none of either when [opts.auditors] is
    absent).  The comparison comes before any point is decoded: the
    receiver's handle, the keys and the commitments play no part in it. *)
Theorem verifySigmaProofVeiledTransfer_auditors_number {G : RistrettoGroup}
  (sha512 : bytes -> bytes)
  (deserialize : bytes -> Result SigmaProofVeiledTransferOutputs)
  (opts : VerifySigmaProofVeiledTransferOptions) :
  let auditorPKs :=
    match vt_auditors opts with Some au => au_publicKeys au | None => [] end in
  let auditorDecryptionKeys :=
    match vt_auditors opts with Some au => au_decryptionKeys au | None => [] end in
  verifySigmaProofVeiledTransfer sha512 deserialize opts = AuditorsNumberMismatch <->
  exists proof,
    deserialize (vt_proof opts) = Ok proof /\
    let auditorsX := match t_auditorsX proof with Some l => l | None => [] end in
    (length auditorsX <> length auditorDecryptionKeys \/
     length auditorsX <> length auditorPKs).
Proof.
  intros auditorPKs auditorDecryptionKeys.
  unfold verifySigmaProofVeiledTransfer. fold auditorPKs auditorDecryptionKeys.
  destruct (deserialize (vt_proof opts)) as [proof|e].
  - set (auditorsX := match t_auditorsX proof with Some l => l | None => [] end).
    destruct (Nat.eqb_spec (length auditorsX) (length auditorDecryptionKeys)) as [Ed|Ed];
      destruct (Nat.eqb_spec (length auditorsX) (length auditorPKs)) as [Ep|Ep];
      cbn [negb orb].
    + split; [discriminate|].
      intros (proof' & Hp & Hl). injection Hp as <-. cbv zeta in Hl.
      fold auditorsX in Hl. destruct Hl; contradiction.
    + split; [|reflexivity]. intros _. exists proof. split; [reflexivity|]. now right.
    + split; [|reflexivity]. intros _. exists proof. split; [reflexivity|]. now left.
    + split; [|reflexivity]. intros _. exists proof. split; [reflexivity|]. now left.
  - split; [discriminate|]. intros (proof' & Hp & _). discriminate.
Qed.

(** The transfer proof run in [Zl_group] with one auditor: the verifier
    accepts it; with the handle of another auditor it returns false; with no
    auditors passed it throws. *)
Example transfer_run :
  let run := fun (auditors : option TransferAuditors) =>
    match
      (pk <- publicKey (G := Zl_group) sk7 ;;
       encryptedBalance <- encryptWithPK (G := Zl_group) zeroBytes 70 pk (Some random12345) ;;
       encryptedAmount <- encryptWithPK (G := Zl_group) zeroBytes 10 pk (Some random777) ;;
       proof <- genSigmaProofVeiledTransfer zeroBytes toyHash exampleSerializeTransfer
                  {| to_senderPrivateKey := sk7;
                     to_receiverPublicKey := keyOf (G := Zl_group) recipientPoint;
                     to_encryptedSenderBalance := encryptedBalance;
                     to_amount := 10;
                     to_changedSenderBalance := 60;
                     to_random := Some random777;
                     to_auditorPublicKeys := Some [keyOf (G := Zl_group) senderPoint] |}
                  11 22 33 44 55 ;;
       Ok (verifySigmaProofVeiledTransfer toyHash exampleDeserializeTransfer
             {| vt_senderPublicKey := pk;
                vt_receiverPublicKey := keyOf (G := Zl_group) recipientPoint;
                vt_encryptedSenderBalance := encryptedBalance;
                vt_encryptedAmountBySender := encryptedAmount;
                vt_receiverDa := toRawBytes (multiply recipientPoint 777);
                vt_proof := proof;
                vt_auditors := auditors |}))
    with
    | Ok v => v
    | Throw e => Verification (Throw e)
    end in
  run (Some {| au_publicKeys := [keyOf (G := Zl_group) senderPoint];
               au_decryptionKeys := [toRawBytes (multiply senderPoint 777)] |})
  = Verification (Ok true) /\
  run (Some {| au_publicKeys := [keyOf (G := Zl_group) recipientPoint];
               au_decryptionKeys := [toRawBytes (multiply recipientPoint 778)] |})
  = Verification (Ok false) /\
  run None = AuditorsNumberMismatch.
Proof. cbv zeta. repeat split; vm_compute; reflexivity. Qed.



(* ------------------------------------------------------------------ *)
(** ** The VeiledTransfer builder: wire format, guards, range proofs *)











Lemma Ok_inj {A : Type} (a b : A) : Ok a = Ok b -> a = b.
Proof. intros H. now injection H. Qed.




(** X15. A balance after transfer of exactly 0 is taken for a missing one.
    The guards [if (!this.balanceAfterTransfer)] hold for [0n] as they do
    for [undefined].  So on an initialised builder whose balance after the
    transfer is 0 (the whole balance is being sent): [genSigmaProof] never
    returns a proof, and once its guards on the randomness list and on the
    amount have passed it throws "Balance after transfer is not defined";
    [genRangeProof] throws the same error as soon as the encrypted balance
    after transfer is present. *)
Theorem balanceAfterTransfer_zero_is_undefined {G : RistrettoGroup}
  (randomBytes : nat -> bytes) (sha512 : bytes -> bytes)
  (generateRangeZKP : Z -> bytes -> bytes -> bytes -> bytes * bytes)
  (this : VeiledTransfer) :
  isInitialized this = true ->
  balanceAfterTransfer this = Some 0 ->
  (forall nonces,
     exists e, genSigmaProof randomBytes sha512 this nonces = Throw e /\
               (e = InvalidRandomnessLength \/ e = AmountTooLarge \/
                e = BalanceAfterTransferUndefined)) /\
  (forall nonces,
     randomnessLengthOk this -> amountToTransfer this < 2 ^ 64 ->
     genSigmaProof randomBytes sha512 this nonces = Throw BalanceAfterTransferUndefined) /\
  (encryptedActualBalanceAfterTransfer this <> None ->
   genRangeProof generateRangeZKP this = Throw BalanceAfterTransferUndefined).
Proof.
  intros Hi Hb.
  pose proof (genSigmaProofGuards_spec this) as Hg.
  split; [|split].
  - intros nonces. unfold genSigmaProof.
    destruct (genSigmaProofGuards this) as [b|[]]; cbn [bind];
      try contradiction;
      try (eexists; split; [reflexivity|auto]; fail).
    + destruct Hg as (_ & _ & _ & Hb' & Hne). congruence.
    + congruence.
  - intros nonces Hl Ha. unfold genSigmaProof.
    destruct (genSigmaProofGuards this) as [b|[]]; cbn [bind];
      try contradiction; try reflexivity.
    + destruct Hg as (_ & _ & _ & Hb' & Hne). congruence.
    + congruence.
    + destruct Hg as (_ & Hg). contradiction.
    + destruct Hg as (_ & _ & Hg). lia.
  - intros He. unfold genRangeProof. rewrite Hi, Hb. cbn [negb].
    destruct (encryptedActualBalanceAfterTransfer this); [reflexivity|contradiction].
Qed.

Lemma balanceAfterTransfer_zero_is_undefined_witness :
  isInitialized (set_balanceAfterTransfer 0 (exampleState true)) = true /\
  balanceAfterTransfer (set_balanceAfterTransfer 0 (exampleState true)) = Some 0 /\
  randomnessLengthOk (set_balanceAfterTransfer 0 (exampleState true)) /\
  amountToTransfer (set_balanceAfterTransfer 0 (exampleState true)) < 2 ^ 64 /\
  genSigmaProof zeroBytes toyHash (set_balanceAfterTransfer 0 (exampleState true)) nonces1
  = Throw BalanceAfterTransferUndefined /\
  encryptedActualBalanceAfterTransfer (set_balanceAfterTransfer 0 (exampleState true))
  <> None /\
  genRangeProof toyRangeZKP (set_balanceAfterTransfer 0 (exampleState true))
  = Throw BalanceAfterTransferUndefined.
Proof.
  destruct (balanceAfterTransfer_zero_is_undefined (G := Zl_group) zeroBytes toyHash
              toyRangeZKP (set_balanceAfterTransfer 0 (exampleState true))
              eq_refl eq_refl) as (_ & H2 & H3).
  assert (Hl : randomnessLengthOk (set_balanceAfterTransfer 0 (exampleState true)))
    by reflexivity.
  assert (Ha : amountToTransfer (set_balanceAfterTransfer 0 (exampleState true)) < 2 ^ 64)
    by (cbn; lia).
  assert (He : encryptedActualBalanceAfterTransfer
                 (set_balanceAfterTransfer 0 (exampleState true)) <> None)
    by discriminate.
  split; [reflexivity|]. split; [reflexivity|].
  split; [exact Hl|]. split; [exact Ha|].
  split; [exact (H2 nonces1 Hl Ha)|].
  split; [exact He|exact (H3 He)].
Defined.

(** The same with the balance after transfer at 1: the proof is made. *)
Example balanceAfterTransfer_one_is_defined :
  outcomeOf (genSigmaProof zeroBytes toyHash
               (set_balanceAfterTransfer 1 (exampleState true)) nonces1) = Returned /\
  outcomeOf (genSigmaProof zeroBytes toyHash
               (set_balanceAfterTransfer 0 (exampleState true)) nonces1)
  = Threw BalanceAfterTransferUndefined.
Proof. split; vm_compute; reflexivity. Qed.

Lemma mapiM_app_inv {A B : Type} (f : A -> nat -> Result B) (xs ys : list A) :
  forall i zs,
    mapiM f i (xs ++ ys) = Ok zs ->
    exists zs1 zs2, mapiM f i xs = Ok zs1 /\ zs = zs1 ++ zs2.
Proof.
  induction xs as [|x xs IH]; intros i zs H.
  - exists [], zs. split; reflexivity.
  - cbn [app mapiM] in H.
    apply bind_Ok_inv in H. destruct H as (y & Hy & H).
    apply bind_Ok_inv in H. destruct H as (rest & Hrest & H).
    apply Ok_inj in H. subst zs.
    destruct (IH _ _ Hrest) as (zs1 & zs2 & H1 & ->).
    exists (y :: zs1), zs2. split; [|reflexivity].
    cbn [mapiM]. rewrite Hy. cbn [bind]. rewrite H1. reflexivity.
Qed.

(** X16. [verifyRangeProof] validates the proofs it is handed and nothing
    more: it does not ask for one proof per chunk.  On an initialised
    builder with its encrypted balance after transfer, the call with two
    empty lists returns true, whatever the range-proof backend; and when a
    call with the lists [amount ++ amount'] and [balance ++ balance']
    returns true, so does the call with the shorter lists [amount] and
    [balance]. *)
Theorem verifyRangeProof_given_proofs_only {G : RistrettoGroup}
  (verifyRangeZKP : bytes -> bytes -> bytes -> bytes -> bool)
  (this : VeiledTransfer) :
  (isInitialized this = true ->
   encryptedActualBalanceAfterTransfer this <> None ->
   verifyRangeProof verifyRangeZKP this [] [] = Ok true) /\
  (forall amount amount' balance balance',
     verifyRangeProof verifyRangeZKP this (amount ++ amount') (balance ++ balance')
     = Ok true ->
     verifyRangeProof verifyRangeZKP this amount balance = Ok true).
Proof.
  split.
  - intros Hi He. unfold verifyRangeProof. rewrite Hi. cbn [negb].
    destruct (encryptedActualBalanceAfterTransfer this); [reflexivity|contradiction].
  - intros amount amount' balance balance'. unfold verifyRangeProof.
    destruct (negb (isInitialized this)); [discriminate|].
    destruct (encryptedActualBalanceAfterTransfer this) as [encryptedAfter|];
      [|discriminate].
    intros H.
    apply bind_Ok_inv in H. destruct H as (va & Hva & H).
    apply bind_Ok_inv in H. destruct H as (vb & Hvb & H).
    apply Ok_inj in H.
    destruct (mapiM_app_inv _ _ _ _ _ Hva) as (va1 & va2 & Ha1 & ->).
    destruct (mapiM_app_inv _ _ _ _ _ Hvb) as (vb1 & vb2 & Hb1 & ->).
    rewrite Ha1. cbn [bind]. rewrite Hb1. cbn [bind]. f_equal.
    rewrite !forallb_app in H. rewrite forallb_app.
    apply andb_true_iff in H. destruct H as [H1 H2].
    apply andb_true_iff in H1. destruct H1 as [H1 _].
    apply andb_true_iff in H2. destruct H2 as [H2 _].
    now rewrite H1, H2.
Qed.

Lemma verifyRangeProof_given_proofs_only_witness :
  isInitialized (exampleState true) = true /\
  encryptedActualBalanceAfterTransfer (exampleState true) <> None /\
  verifyRangeProof (fun _ _ _ _ => false) (exampleState true) [] [] = Ok true.
Proof.
  assert (He : encryptedActualBalanceAfterTransfer (exampleState true) <> None)
    by discriminate.
  split; [reflexivity|]. split; [exact He|].
  exact (proj1 (verifyRangeProof_given_proofs_only (G := Zl_group)
                  (fun _ _ _ _ => false) (exampleState true)) eq_refl He).
Defined.





(** X18. [genSigmaProof] decodes the sender's private key as a point
    ([RistrettoPoint.fromHex(this.twistedEd25519PrivateKey.toUint8Array())]).
    When the four guards pass and the 32 bytes of the private key are not
    the encoding of a point, the call throws the decoding error; and
    whenever the call returns a proof, the key's bytes are the encoding of
    a point [Q] and [X2List] holds the multiples [x3.Q] of that point by the
    nonces [x3List], not multiples of the sender's public key. *)
Theorem genSigmaProof_decodes_private_key {G : RistrettoGroup}
  (randomBytes : nat -> bytes) (sha512 : bytes -> bytes)
  (this : VeiledTransfer) (nonces : TransferNonces) :
  let keyBytes := sk_toUint8Array (twistedEd25519PrivateKey this) in
  (forall b,
     isInitialized this = true -> randomnessLengthOk this ->
     amountToTransfer this < 2 ^ 64 ->
     balanceAfterTransfer this = Some b -> b <> 0 ->
     fromHex keyBytes = None ->
     genSigmaProof randomBytes sha512 this nonces = Throw InvalidPointEncoding) /\
  (forall proof,
     genSigmaProof randomBytes sha512 this nonces = Ok proof ->
     exists Q,
       fromHex keyBytes = Some Q /\
       X2List proof = map (fun x3 => toRawBytes (multiply Q x3)) (x3List nonces)).
Proof.
  intros keyBytes. split.
  - intros b Hi Hl Ha Hb Hb0 Hnone. unfold genSigmaProof.
    pose proof (genSigmaProofGuards_spec this) as Hg.
    destruct (genSigmaProofGuards this) as [b'|[]]; try contradiction.
    + cbn [bind]. cbv zeta. unfold pointFromHex at 1. fold keyBytes.
      rewrite Hnone. reflexivity.
    + congruence.
    + destruct Hg as (_ & Hg). contradiction.
    + destruct Hg as (_ & _ & Hg). lia.
    + destruct Hg as (_ & _ & _ & [Hg|Hg]); congruence.
  - intros proof H. unfold genSigmaProof in H. cbv zeta in H.
    apply bind_Ok_inv in H. destruct H as (bal & _ & H).
    apply bind_Ok_inv in H. destruct H as (Q & HQ & H).
    exists Q. split.
    { unfold pointFromHex in HQ. fold keyBytes in HQ.
      destruct (fromHex keyBytes) as [Q'|]; [|discriminate HQ].
      cbn [orThrow] in HQ. apply Ok_inj in HQ. now subst Q'. }
    apply bind_Ok_inv in H. destruct H as (recipientPK & _ & H).
    apply bind_Ok_inv in H. destruct H as (newBalance & _ & H).
    apply bind_Ok_inv in H. destruct H as (X4s & _ & H).
    apply bind_Ok_inv in H. destruct H as (X6s & _ & H).
    apply bind_Ok_inv in H. destruct H as (X7s & _ & H).
    apply bind_Ok_inv in H. destruct H as (senderPublicKey & _ & H).
    apply bind_Ok_inv in H. destruct H as (invertSLE & _ & H).
    apply bind_Ok_inv in H. destruct H as (a3s & _ & H).
    apply bind_Ok_inv in H. destruct H as (a4s & _ & H).
    apply bind_Ok_inv in H. destruct H as (a6s & _ & H).
    apply Ok_inj in H. subst proof. reflexivity.
Qed.

Lemma genSigmaProof_decodes_private_key_witness :
  genSigmaProof zeroBytes toyHash (exampleBuilder skHigh []) nonces1
  = Throw InvalidPointEncoding.
Proof.
  apply (proj1 (genSigmaProof_decodes_private_key (G := Zl_group) zeroBytes toyHash
                  (exampleBuilder skHigh []) nonces1) 60).
  - reflexivity.
  - reflexivity.
  - cbn. lia.
  - reflexivity.
  - lia.
  - vm_compute. reflexivity.
Defined.

(** On the example builder, whose key 7 is the encoding of the point [7.G]
    in [Zl_group], the first commitment of [X2List] is [1003.(7.G)]. *)
Example genSigmaProof_X2List_run :
  match genSigmaProof zeroBytes toyHash (exampleState true) nonces1 with
  | Ok proof => nth 0 (X2List proof) [] = numberToBytesLE (1003 * 7) 32
  | Throw _ => False
  end.
Proof. vm_compute. reflexivity. Qed.
